(** * The MOPSO particle and its leader-selection topologies

    A shallow embedding of [optimizer/mopso/particle.py]: the [Particle]
    state (position, velocity, personal best), its update methods, and the
    eight leader-selection topologies that [get_pareto_leader] dispatches to.

    Conventions of the embedding.
    - Positions, velocities, fitness vectors and crowding distances are
      float64 arrays; a float64 value is an exact rational ([Q]).  Rounding
      error and the non-finite values (NaN, the [np.inf] of a fresh
      particle's [best_fitness]) are outside the model, so [__init__] is
      not embedded.
    - A Python exception is an [outcome] [Raise e].
    - The process-wide generator [Randomizer.rng] is a tape of uniform
      variates that is threaded through the stochastic functions; running
      off the end of the tape is the outcome [Starved].
    - [np.exp] and the content of an [np.empty_like] array are parameters. *)

From Stdlib Require Import String List ZArith QArith Qround Qabs Lia Lqa Bool Arith.
Import ListNotations.

Local Open Scope Q_scope.

(** ** Outcomes of a call *)

Inductive exn : Type :=
| IndexError
| ZeroDivisionError
| ValueError (msg : string).

Inductive outcome (A : Type) : Type :=
| Return (a : A)
| Raise (e : exn)
| Starved.

Arguments Return {A} a.
Arguments Raise {A} e.
Arguments Starved {A}.

Definition obind {A B : Type} (c : outcome A) (k : A -> outcome B) : outcome B :=
  match c with
  | Return a => k a
  | Raise e => Raise e
  | Starved => Starved
  end.

Declare Scope outcome_scope.
Delimit Scope outcome_scope with outcome.
Notation "'let?' x ':=' c 'in' k" := (obind c (fun x => k))
  (at level 10, x name, c at level 100, k at level 200)
  : outcome_scope.
Local Open Scope outcome_scope.

(** ** The numpy operations the particle uses *)

Module Np.

(** [a[i]] on a sequence, for a non-negative index. *)
Definition getitem {A : Type} (a : list A) (i : nat) : outcome A :=
  match nth_error a i with
  | Some x => Return x
  | None => Raise IndexError
  end.

(** [np.array(a)[idx].tolist()]: indexing by an array of indices. *)
Fixpoint take {A : Type} (a : list A) (idx : list nat) : outcome (list A) :=
  match idx with
  | [] => Return []
  | i :: idx' =>
      let? x := getitem a i in
      let? xs := take a idx' in
      Return (x :: xs)
  end.

(** [np.argsort(a)]: the indices of [a] in ascending order of value.
    The indices are inserted from the last to the first, each before the
    first entry that is not smaller, so equal values keep their order;
    numpy leaves the order of equal values open, and the statements on
    crowding distances below hold for either order. *)
Fixpoint insert (k : nat * Q) (l : list (nat * Q)) : list (nat * Q) :=
  match l with
  | [] => [k]
  | h :: t => if Qle_bool (snd k) (snd h) then k :: l else h :: insert k t
  end.

Definition enumerate (a : list Q) : list (nat * Q) :=
  combine (seq 0 (length a)) a.

Definition sort_keys (l : list (nat * Q)) : list (nat * Q) :=
  fold_right insert [] l.

Definition argsort (a : list Q) : list nat :=
  map fst (sort_keys (enumerate a)).

(** [np.round(x)] of a float64 scalar: to the nearest integer, a tie to
    the even one. *)
Definition round (x : Q) : Z :=
  let f := Qfloor x in
  match Qcompare (x - inject_Z f) (1 # 2) with
  | Lt => f
  | Gt => (f + 1)%Z
  | Eq => if Z.even f then f else (f + 1)%Z
  end.

Definition maximum (x y : Q) : Q := if Qle_bool x y then y else x.
Definition minimum (x y : Q) : Q := if Qle_bool x y then x else y.

(** One cell of [np.clip]: [minimum(maximum(x, lo), hi)]. *)
Definition clip1 (x lo hi : Q) : Q := minimum (maximum x lo) hi.

(** Broadcasting of one-dimensional shapes: equal lengths, or one of
    them 1. *)
Definition broadcast_shape (m n : nat) : option nat :=
  if Nat.eqb m n then Some m
  else if Nat.eqb m 1 then Some n
  else if Nat.eqb n 1 then Some m
  else None.

Definition broadcast_to {A : Type} (n : nat) (a : list A) : list A :=
  if Nat.eqb (length a) n then a
  else match a with
       | x :: _ => repeat x n
       | [] => []
       end.

Definition shape_error {A : Type} : outcome A :=
  Raise (ValueError "operands could not be broadcast together").

(** [np.clip(a, lo, hi)] on one-dimensional arrays. *)
Definition clip (a lo hi : list Q) : outcome (list Q) :=
  match broadcast_shape (length a) (length lo) with
  | None => shape_error
  | Some m =>
      match broadcast_shape m (length hi) with
      | None => shape_error
      | Some n =>
          Return (map (fun c => clip1 (fst c) (fst (snd c)) (snd (snd c)))
                    (combine (broadcast_to n a)
                       (combine (broadcast_to n lo) (broadcast_to n hi))))
      end
  end.

(** [np.all(a <= b)] on one-dimensional arrays. *)
Definition all_le (a b : list Q) : outcome bool :=
  match broadcast_shape (length a) (length b) with
  | None => shape_error
  | Some n =>
      Return (forallb (fun c => Qle_bool (fst c) (snd c))
                (combine (broadcast_to n a) (broadcast_to n b)))
  end.

(** [a[i] = x] on an array, for an index in range. *)
Fixpoint setitem (a : list Q) (i : nat) (x : Q) : list Q :=
  match a, i with
  | [], _ => []
  | _ :: a', O => x :: a'
  | y :: a', S i' => y :: setitem a' i' x
  end.

(** An arithmetic operator between two one-dimensional arrays, with
    broadcasting. *)
Definition binop (f : Q -> Q -> Q) (a b : list Q) : outcome (list Q) :=
  match broadcast_shape (length a) (length b) with
  | None => shape_error
  | Some n =>
      Return (map (fun c => f (fst c) (snd c))
                (combine (broadcast_to n a) (broadcast_to n b)))
  end.

(** [a + b] and [a - b] on arrays, [c * a] for a scalar [c]. *)
Definition add : list Q -> list Q -> outcome (list Q) := binop Qplus.
Definition subtract : list Q -> list Q -> outcome (list Q) := binop Qminus.
Definition scale (c : Q) (a : list Q) : list Q := map (Qmult c) a.

End Np.

(** ** The shared random source *)

Module Randomizer.

(** The state of [Randomizer.rng]: the uniform variates it has yet to
    hand out.  Every draw takes one variate and keeps its fractional
    part, a number in [[0, 1)]. *)
Definition rng : Type := list Q.

Definition M (A : Type) : Type := rng -> outcome (A * rng).

Definition ret {A : Type} (a : A) : M A := fun s => Return (a, s).

Definition bind {A B : Type} (c : M A) (k : A -> M B) : M B :=
  fun s =>
    match c s with
    | Return (a, s') => k a s'
    | Raise e => Raise e
    | Starved => Starved
    end.

(** A call of a function that does not draw. *)
Definition lift {A : Type} (c : outcome A) : M A :=
  fun s =>
    match c with
    | Return a => Return (a, s)
    | Raise e => Raise e
    | Starved => Starved
    end.

Definition raise {A : Type} (e : exn) : M A := fun _ => Raise e.

Definition frac (u : Q) : Q := u - inject_Z (Qfloor u).

(** The index in [range(n)] that a variate [u] of [[0, 1)] selects. *)
Definition index_of (n : nat) (u : Q) : nat :=
  Z.to_nat (Qfloor (u * inject_Z (Z.of_nat n))).

(** [rng.random()]: a float in [[0, 1)]. *)
Definition random : M Q :=
  fun s =>
    match s with
    | [] => Starved
    | u :: s' => Return (frac u, s')
    end.

(** [rng.integers(0, high)].  A range of one value is returned without a
    draw.  For a wider range a variate stands for the raw word the
    generator accepts; the words its bounded draw may reject before that
    one are not on the tape. *)
Definition integers (high : nat) : M nat :=
  match high with
  | O => raise (ValueError "low >= high")
  | S O => ret O
  | S (S _) => bind random (fun u => ret (index_of high u))
  end.

(** [rng.integers(0, high, size = 2)]. *)
Definition integers2 (high : nat) : M (nat * nat) :=
  bind (integers high) (fun i0 =>
  bind (integers high) (fun i1 =>
  ret (i0, i1))).

(** [rng.choice(a)]: one entry of [a], each as likely as the others. *)
Definition choice {A : Type} (a : list A) : M A :=
  match a with
  | [] => raise (ValueError "a cannot be empty unless no samples are taken")
  | _ :: _ => bind (integers (length a)) (fun i => lift (Np.getitem a i))
  end.

Definition Qsum (p : list Q) : Q := fold_right Qplus 0 p.

(** [cdf.searchsorted(u, side = 'right')] on the running sums of [p]:
    the number of leading entries whose running sum is at most [u]. *)
Fixpoint searchsorted (acc : Q) (p : list Q) (u : Q) : nat :=
  match p with
  | [] => O
  | x :: p' =>
      if Qle_bool (acc + x) u then S (searchsorted (acc + x) p' u) else O
  end.

(** [rng.choice(a, p = p)]: entry [i] of [a] with probability [p[i]]. *)
Definition choice_p {A : Type} (a : list A) (p : list Q) : M A :=
  match a with
  | [] => raise (ValueError "a cannot be empty unless no samples are taken")
  | _ :: _ =>
      if negb (Nat.eqb (length p) (length a)) then
        raise (ValueError "a and p must have same size")
      else if negb (forallb (Qle_bool 0) p) then
        raise (ValueError "probabilities are not non-negative")
      else if negb (Qeq_bool (Qsum p) 1) then
        raise (ValueError "probabilities do not sum to 1")
      else
        bind random (fun u => lift (Np.getitem a (searchsorted 0 p u)))
  end.

(** [rng.uniform(low, high)]: [low + (high - low) * rng.random()]. *)
Definition uniform (low high : Q) : M Q :=
  bind random (fun u => ret (low + (high - low) * u)).

End Randomizer.

Declare Scope rand_scope.
Delimit Scope rand_scope with rand.
Notation "x <- c ;; k" := (Randomizer.bind c (fun x => k))
  (at level 61, c at next level, right associativity) : rand_scope.

Local Open Scope rand_scope.
Local Open Scope string_scope.

(** ** The particle *)

(** A bound as [lower_bound[i]] hands it over: a Python [int], [float] or
    [bool] when the bounds are a list, a numpy scalar ([np.int64],
    [np.float64], [np.bool_]) when they are an array. *)
Inductive scalar : Type :=
| PyInt (z : Z)
| PyFloat (x : Q)
| PyBool (b : bool)
| NpInt (z : Z)
| NpFloat (x : Q)
| NpBool (b : bool).

(** [type(x) == int or type(x) == bool]: the type itself is compared, so
    a numpy scalar is neither. *)
Definition is_int_or_bool (x : scalar) : bool :=
  match x with
  | PyInt _ | PyBool _ => true
  | PyFloat _ | NpInt _ | NpFloat _ | NpBool _ => false
  end.

(** The value of a bound as an array cell. *)
Definition as_float (x : scalar) : Q :=
  match x with
  | PyInt z | NpInt z => inject_Z z
  | PyFloat x | NpFloat x => x
  | PyBool b | NpBool b => if b then 1 else 0
  end.

Record Particle : Type := mkParticle {
  position : list Q;
  num_objectives : nat;
  num_particles : nat;
  velocity : list Q;
  best_position : list Q;
  best_fitness : list Q;
  fitness : list Q;
  id : Z;
  topology : string
}.

Definition with_position (self : Particle) (x : list Q) : Particle :=
  mkParticle x (num_objectives self) (num_particles self) (velocity self)
    (best_position self) (best_fitness self) (fitness self) (id self)
    (topology self).

Definition with_fitness (self : Particle) (f : list Q) : Particle :=
  mkParticle (position self) (num_objectives self) (num_particles self)
    (velocity self) (best_position self) (best_fitness self) f (id self)
    (topology self).

Definition with_best (self : Particle) (x f : list Q) : Particle :=
  mkParticle (position self) (num_objectives self) (num_particles self)
    (velocity self) x f (fitness self) (id self) (topology self).

Section Methods.

(** The content of cell [i] of a fresh [np.empty_like] array. *)
Variable np_empty : nat -> Q.

(** [np.exp]. *)
Variable np_exp : Q -> Q.

Definition empty_like (a : list Q) : list Q :=
  map np_empty (seq 0 (length a)).

(** The value [update_position] stores in a cell before clipping. *)
Definition moved (lb : scalar) (p v : Q) : Q :=
  if is_int_or_bool lb then inject_Z (Np.round (p + v)) else p + v.

(** The loop of [update_position] over the indices [idx]. *)
Fixpoint fill_position (self : Particle) (lower_bound : list scalar)
    (idx : list nat) (new_position : list Q) : outcome (list Q) :=
  match idx with
  | [] => Return new_position
  | i :: idx' =>
      let? lb := Np.getitem lower_bound i in
      let? p := Np.getitem (position self) i in
      let? v := Np.getitem (velocity self) i in
      fill_position self lower_bound idx'
        (Np.setitem new_position i (moved lb p v))
  end.

Definition update_position (self : Particle)
    (lower_bound upper_bound : list scalar) : outcome Particle :=
  let new_position := empty_like (position self) in
  let? new_position :=
    fill_position self lower_bound (seq 0 (length lower_bound)) new_position in
  let? clipped :=
    Np.clip new_position (map as_float lower_bound) (map as_float upper_bound) in
  Return (with_position self clipped).

Definition update_best (self : Particle) : outcome Particle :=
  let? improved := Np.all_le (fitness self) (best_fitness self) in
  Return (if improved : bool
          then with_best self (position self) (fitness self)
          else self).

Definition set_fitness (self : Particle) (fitness : list Q) : outcome Particle :=
  update_best (with_fitness self fitness).

(** ** Leader-selection topologies *)

Definition crowding_distance_topology (pareto_front : list Particle)
    (crowding_distances : list Q) (higher : bool) : outcome Particle :=
  let sorted_indexes :=
    if higher then Np.argsort (rev crowding_distances)
    else Np.argsort crowding_distances in
  let? pareto_front := Np.take pareto_front sorted_indexes in
  Np.getitem pareto_front 0.

(** In the branch for three distances or more the quotients are those of
    [Q], where a division by zero gives 0; float64 gives [inf] or NaN
    there.  No statement below enters that branch with a zero divisor. *)
Definition boltzmann (crowding_distances : list Q) (higher : bool)
    : Randomizer.M (list Q) :=
  let cd_list := crowding_distances in
  let len_cd := length cd_list in
  if Nat.eqb len_cd 1 then Randomizer.ret [1]
  else if Nat.eqb len_cd 2 then Randomizer.choice [[1; 0]; [0; 1]]
  else
    let cd_list :=
      if higher then map (fun cd => 1 / (cd + (1 # 1000000000))) cd_list
      else cd_list in
    let pdf := map (fun cd => np_exp (- cd)) cd_list in
    let total := Randomizer.Qsum pdf in
    Randomizer.ret (map (fun x => x / total) pdf).

Definition weighted_crowding_distance_topology (pareto_front : list Particle)
    (crowding_distances : list Q) (higher : bool) : Randomizer.M Particle :=
  pdf <- boltzmann crowding_distances higher ;;
  Randomizer.choice_p pareto_front pdf.

Definition round_robin_topology (pareto_front : list Particle) (id : Z)
    : outcome Particle :=
  match pareto_front with
  | [] => Raise ZeroDivisionError
  | _ :: _ =>
      let index := (id mod Z.of_nat (length pareto_front))%Z in
      Np.getitem pareto_front (Z.to_nat index)
  end.

(** The [while] loop of [random_ring_topology]: pairs of indices are
    drawn until the two differ. *)
Fixpoint draw_distinct (pareto_len : nat) (s : Randomizer.rng)
    : outcome ((nat * nat) * Randomizer.rng) :=
  match s with
  | u :: v :: s' =>
      let i0 := Randomizer.index_of pareto_len (Randomizer.frac u) in
      let i1 := Randomizer.index_of pareto_len (Randomizer.frac v) in
      if Nat.eqb i0 i1 then draw_distinct pareto_len s'
      else Return ((i0, i1), s')
  | _ => Starved
  end.

(** [i in indexes]. *)
Definition in_indexes (indexes : nat * nat) (i : nat) : bool :=
  Nat.eqb i (fst indexes) || Nat.eqb i (snd indexes).

(** [random_ring_topology] after the loop has left [indexes]. *)
Definition ring_leader (pareto_front : list Particle)
    (crowding_distances : list Q) (higher : bool) (indexes : nat * nat)
    : outcome Particle :=
  let pareto_len := length pareto_front in
  let pareto_particles :=
    map snd (filter (fun c => in_indexes indexes (fst c))
               (combine (seq 0 pareto_len) pareto_front)) in
  let? picked := Np.take crowding_distances [fst indexes; snd indexes] in
  let sorted_indexes :=
    if higher then Np.argsort (rev picked) else Np.argsort picked in
  let? pareto_particles := Np.take pareto_particles sorted_indexes in
  Np.getitem pareto_particles 0.

Definition random_ring_topology (pareto_front : list Particle)
    (crowding_distances : list Q) (higher : bool) : Randomizer.M Particle :=
  let pareto_len := length pareto_front in
  if Nat.ltb pareto_len 2 then Randomizer.lift (Np.getitem pareto_front 0)
  else
    indexes <- draw_distinct pareto_len ;;
    Randomizer.lift (ring_leader pareto_front crowding_distances higher indexes).

Definition not_implemented (topology : string) : exn :=
  ValueError ("MOPSO: " ++ topology ++ " not implemented!").

Definition get_pareto_leader (self : Particle) (pareto_front : list Particle)
    (crowding_distances : list Q) : Randomizer.M Particle :=
  if topology self =? "random" then
    Randomizer.choice pareto_front
  else if topology self =? "higher_crowding_distance" then
    Randomizer.lift (crowding_distance_topology pareto_front crowding_distances true)
  else if topology self =? "lower_crowding_distance" then
    Randomizer.lift (crowding_distance_topology pareto_front crowding_distances false)
  else if topology self =? "higher_weighted_crowding_distance" then
    weighted_crowding_distance_topology pareto_front crowding_distances true
  else if topology self =? "lower_weighted_crowding_distance" then
    weighted_crowding_distance_topology pareto_front crowding_distances false
  else if topology self =? "round_robin" then
    Randomizer.lift (round_robin_topology pareto_front (id self))
  else if topology self =? "higher_crowding_distance_random_ring" then
    random_ring_topology pareto_front crowding_distances true
  else if topology self =? "lower_crowding_distance_random_ring" then
    random_ring_topology pareto_front crowding_distances false
  else
    Randomizer.raise (not_implemented (topology self)).

End Methods.

Definition with_velocity (self : Particle) (v : list Q) : Particle :=
  mkParticle (position self) (num_objectives self) (num_particles self) v
    (best_position self) (best_fitness self) (fitness self) (id self)
    (topology self).

Section Velocity.

(** [np.exp]. *)
Variable np_exp : Q -> Q.

(** The arithmetic of [update_velocity] once the leader and the two
    random factors are known. *)
Definition new_velocity (self leader : Particle)
    (inertia_weight cognitive_coefficient social_coefficient : Q)
    (cognitive_random social_random : Q) : outcome (list Q) :=
  let? to_best := Np.subtract (best_position self) (position self) in
  let cognitive :=
    Np.scale (cognitive_coefficient * cognitive_random) to_best in
  let? to_leader := Np.subtract (position leader) (position self) in
  let social := Np.scale (social_coefficient * social_random) to_leader in
  let? inertia_and_cognitive :=
    Np.add (Np.scale inertia_weight (velocity self)) cognitive in
  Np.add inertia_and_cognitive social.

(** [update_velocity]; the defaults of the three coefficients are 0.5, 1
    and 1. *)
Definition update_velocity (self : Particle) (pareto_front : list Particle)
    (crowding_distances : list Q)
    (inertia_weight cognitive_coefficient social_coefficient : Q)
    : Randomizer.M Particle :=
  leader <- get_pareto_leader np_exp self pareto_front crowding_distances ;;
  cognitive_random <- Randomizer.uniform 0 1 ;;
  social_random <- Randomizer.uniform 0 1 ;;
  velocity <- Randomizer.lift
    (new_velocity self leader inertia_weight cognitive_coefficient
       social_coefficient cognitive_random social_random) ;;
  Randomizer.ret (with_velocity self velocity).

End Velocity.

(** ** Vocabulary of the statements *)

(** The names [get_pareto_leader] recognises, in the order it tests them. *)
Definition topologies : list string :=
  [ "random";
    "higher_crowding_distance";
    "lower_crowding_distance";
    "higher_weighted_crowding_distance";
    "lower_weighted_crowding_distance";
    "round_robin";
    "higher_crowding_distance_random_ring";
    "lower_crowding_distance_random_ring" ].

(** [[front[i] for i in range(k, k + len(front)) if sel(i)]], the members
    being numbered from [k]. *)
Definition selected (sel : nat -> bool) (front : list Particle) (k : nat)
    : list Particle :=
  map snd (filter (fun c => sel (fst c)) (combine (seq k (length front)) front)).

(** Sample inputs: a particle in a mixed search space with its bounds,
    front members told apart by their [id], and a particle of a given
    topology. *)
Definition sample_particle : Particle :=
  mkParticle [1 # 2; 3] 2 3 [1; 5] [1 # 4; 2] [4; 4] [1; 1] 7 "round_robin".

Definition sample_lower_bound : list scalar := [PyFloat 0; PyInt 0].
Definition sample_upper_bound : list scalar := [PyFloat 1; PyInt 5].

Definition sample_member (i : Z) : Particle :=
  mkParticle [inject_Z i] 2 3 [0] [inject_Z i] [4; 4] [1; 1] i "round_robin".

Definition sample_with_topology (name : string) : Particle :=
  mkParticle [1 # 2; 3] 2 3 [1; 5] [1 # 4; 2] [4; 4] [1; 1] 7 name.

(** A front member of the two-dimensional sample space. *)
Definition sample_point (a b : Q) (i : Z) : Particle :=
  mkParticle [a; b] 2 3 [0; 0] [a; b] [4; 4] [1; 1] i "round_robin".

Definition sample_front : list Particle :=
  [sample_point 0 1 0; sample_point 1 4 1].

(** A particle of a search space of [n] dimensions: position, velocity and
    best position have [n] cells each. *)
Definition well_shaped (n : nat) (self : Particle) : Prop :=
  length (position self) = n /\ length (velocity self) = n /\
  length (best_position self) = n.

(** The [cd_list] that [boltzmann] exponentiates for three distances or
    more: the distances, or for [higher] their shifted inverses. *)
Definition exponents (crowding_distances : list Q) (higher : bool) : list Q :=
  if higher then map (fun cd => 1 / (cd + (1 # 1000000000))) crowding_distances
  else crowding_distances.

(** The unnormalised weights and the probability vector made of them. *)
Definition weights (np_exp : Q -> Q) (crowding_distances : list Q)
    (higher : bool) : list Q :=
  map (fun cd => np_exp (- cd)) (exponents crowding_distances higher).

Definition normalised (w : list Q) : list Q :=
  map (fun x => x / Randomizer.Qsum w) w.

(** A stand-in for [np.exp] in sample runs: never negative, never
    decreasing, and 0 from -4 downwards, as the float64 exponential is
    from about -745 downwards. *)
Definition sample_exp (x : Q) : Q :=
  if Qle_bool x (- (4)) then 0
  else if Qle_bool x 0 then 1 + x * (1 # 4)
  else 1 + x.

(** A bound of integer or boolean kind, whatever its carrier. *)
Definition integer_kind (x : scalar) : bool :=
  match x with
  | PyInt _ | PyBool _ | NpInt _ | NpBool _ => true
  | PyFloat _ | NpFloat _ => false
  end.

(** A bound of float kind. *)
Definition is_float (x : scalar) : bool :=
  match x with
  | PyFloat _ | NpFloat _ => true
  | PyInt _ | PyBool _ | NpInt _ | NpBool _ => false
  end.

(** A particle of one dimension at [x] with velocity [v]. *)
Definition sample_cell (x v : Q) : Particle :=
  mkParticle [x] 2 3 [v] [x] [4; 4] [1; 1] 0 "round_robin".

(** [f[i] <= b[i]] at every index the two arrays share. *)
Definition componentwise_le (f b : list Q) : Prop :=
  forall i x y, nth_error f i = Some x -> nth_error b i = Some y -> x <= y.

(** * Properties *)

(** ** Comparisons, rounding and clipping *)

Lemma Qle_bool_false (x y : Q) : Qle_bool x y = false <-> y < x.
Proof.
  split; intro H.
  - apply Qnot_le_lt. intro Hle. apply Qle_bool_iff in Hle. congruence.
  - destruct (Qle_bool x y) eqn:E; [|reflexivity].
    apply Qle_bool_iff in E. exfalso. apply (Qlt_not_le _ _ H E).
Qed.

Lemma maximum_ge (x lo : Q) : lo <= Np.maximum x lo /\ x <= Np.maximum x lo.
Proof.
  unfold Np.maximum. destruct (Qle_bool x lo) eqn:E.
  - apply Qle_bool_iff in E. split; [apply Qle_refl | exact E].
  - apply Qle_bool_false in E. split; [apply Qlt_le_weak; exact E | apply Qle_refl].
Qed.

Lemma clip1_within (x lo hi : Q) :
  lo <= hi -> lo <= Np.clip1 x lo hi /\ Np.clip1 x lo hi <= hi.
Proof.
  intro Hb. unfold Np.clip1, Np.minimum.
  destruct (maximum_ge x lo) as [Hlo _].
  destruct (Qle_bool (Np.maximum x lo) hi) eqn:E.
  - apply Qle_bool_iff in E. split; assumption.
  - split; [exact Hb | apply Qle_refl].
Qed.

Lemma clip1_cases (x lo hi : Q) :
  Np.clip1 x lo hi = x \/ Np.clip1 x lo hi = lo \/ Np.clip1 x lo hi = hi.
Proof.
  unfold Np.clip1, Np.minimum, Np.maximum.
  destruct (Qle_bool x lo); destruct (Qle_bool _ hi); auto.
Qed.

Lemma frac_range (u : Q) : 0 <= Randomizer.frac u /\ Randomizer.frac u < 1.
Proof.
  unfold Randomizer.frac.
  pose proof (Qfloor_le u) as Hlo.
  pose proof (Qlt_floor u) as Hhi.
  rewrite inject_Z_plus in Hhi. change (inject_Z 1) with 1 in Hhi.
  split; lra.
Qed.

Lemma Qfloor_unique (x : Q) (z : Z) :
  inject_Z z <= x -> x < inject_Z (z + 1) -> Qfloor x = z.
Proof.
  intros Hlo Hhi.
  assert (H1 : (z <= Qfloor x)%Z).
  { rewrite <- (Qfloor_Z z). apply Qfloor_resp_le. exact Hlo. }
  assert (H2 : (Qfloor x < z + 1)%Z).
  { rewrite Zlt_Qlt. apply Qle_lt_trans with x; [apply Qfloor_le | exact Hhi]. }
  lia.
Qed.

(** [np.round] returns a nearest integer. *)
Lemma round_nearest (x : Q) : Qabs (inject_Z (Np.round x) - x) <= 1 # 2.
Proof.
  pose proof (Qfloor_le x) as Hlo.
  pose proof (Qlt_floor x) as Hhi.
  rewrite inject_Z_plus in Hhi. change (inject_Z 1) with 1 in Hhi.
  apply Qabs_Qle_condition. unfold Np.round.
  destruct (Qcompare (x - inject_Z (Qfloor x)) (1 # 2)) eqn:E.
  - apply Qeq_alt in E.
    destruct (Z.even (Qfloor x)).
    + split; lra.
    + rewrite inject_Z_plus. change (inject_Z 1) with 1. split; lra.
  - apply Qlt_alt in E. split; lra.
  - apply Qgt_alt in E. rewrite inject_Z_plus. change (inject_Z 1) with 1.
    split; lra.
Qed.

(** A tie goes to the even neighbour. *)
Lemma round_half_even (z : Z) :
  Z.even (Np.round (inject_Z z + (1 # 2))) = true.
Proof.
  assert (Hf : Qfloor (inject_Z z + (1 # 2)) = z).
  { apply Qfloor_unique.
    - lra.
    - rewrite inject_Z_plus. change (inject_Z 1) with 1. lra. }
  unfold Np.round. rewrite Hf.
  assert (E : Qcompare (inject_Z z + (1 # 2) - inject_Z z) (1 # 2) = Eq).
  { apply Qeq_alt. ring. }
  rewrite E. destruct (Z.even z) eqn:Ev; [exact Ev|].
  rewrite Z.even_add. rewrite Ev. reflexivity.
Qed.

(** ** Arrays *)

Lemma setitem_length (a : list Q) (i : nat) (x : Q) :
  length (Np.setitem a i x) = length a.
Proof.
  revert i. induction a as [|y a IH]; intros [|i]; simpl; auto.
Qed.

Lemma setitem_same (a : list Q) (i : nat) (x : Q) :
  (i < length a)%nat -> nth_error (Np.setitem a i x) i = Some x.
Proof.
  revert i. induction a as [|y a IH]; intros [|i] H; simpl in *; try lia.
  - reflexivity.
  - apply IH. lia.
Qed.

Lemma setitem_other (a : list Q) (i j : nat) (x : Q) :
  i <> j -> nth_error (Np.setitem a i x) j = nth_error a j.
Proof.
  revert i j. induction a as [|y a IH]; intros [|i] [|j] H; simpl; try reflexivity.
  - congruence.
  - apply IH. congruence.
Qed.

Lemma broadcast_shape_same (n : nat) : Np.broadcast_shape n n = Some n.
Proof. unfold Np.broadcast_shape. rewrite Nat.eqb_refl. reflexivity. Qed.

Lemma broadcast_to_same {A : Type} (a : list A) : Np.broadcast_to (length a) a = a.
Proof. unfold Np.broadcast_to. rewrite Nat.eqb_refl. reflexivity. Qed.

Lemma nth_error_zip3 {A B C D : Type} (f : A * (B * C) -> D)
    (a : list A) (b : list B) (c : list C) (i : nat) (x : A) (y : B) (z : C) :
  nth_error a i = Some x -> nth_error b i = Some y -> nth_error c i = Some z ->
  nth_error (map f (combine a (combine b c))) i = Some (f (x, (y, z))).
Proof.
  revert b c i.
  induction a as [|x0 a IH]; intros [|y0 b] [|z0 c] [|i] Ha Hb Hc;
    simpl in *; try discriminate.
  - congruence.
  - apply IH; assumption.
Qed.

Lemma zip3_length {A B C D : Type} (f : A * (B * C) -> D)
    (a : list A) (b : list B) (c : list C) :
  length b = length a -> length c = length a ->
  length (map f (combine a (combine b c))) = length a.
Proof.
  intros Hb Hc. rewrite length_map, !length_combine. lia.
Qed.

(** On arrays of one length [np.clip] works cell by cell. *)
Lemma clip_aligned (a lo hi : list Q) :
  length lo = length a -> length hi = length a ->
  Np.clip a lo hi =
    Return (map (fun c => Np.clip1 (fst c) (fst (snd c)) (snd (snd c)))
              (combine a (combine lo hi))).
Proof.
  intros Hlo Hhi. unfold Np.clip.
  rewrite Hlo, broadcast_shape_same, Hhi, broadcast_shape_same.
  rewrite broadcast_to_same.
  rewrite <- Hlo at 1. rewrite broadcast_to_same.
  rewrite <- Hhi. rewrite broadcast_to_same. reflexivity.
Qed.

Section Update_position.

Variable np_empty : nat -> Q.
Variable self : Particle.
Variable lower_bound upper_bound : list scalar.

Hypothesis lower_aligned : length lower_bound = length (position self).
Hypothesis upper_aligned : length upper_bound = length (position self).
Hypothesis velocity_aligned : length (velocity self) = length (position self).

(** The loop over [range(k, k + m)] sets exactly those cells. *)
Lemma fill_position_seq (m k : nat) (cells : list Q) :
  length cells = length (position self) ->
  (k + m <= length (position self))%nat ->
  exists cells',
    fill_position self lower_bound (seq k m) cells = Return cells' /\
    length cells' = length (position self) /\
    (forall i lb p v, (k <= i < k + m)%nat ->
       nth_error lower_bound i = Some lb ->
       nth_error (position self) i = Some p ->
       nth_error (velocity self) i = Some v ->
       nth_error cells' i = Some (moved lb p v)) /\
    (forall i, (i < k \/ k + m <= i)%nat ->
       nth_error cells' i = nth_error cells i).
Proof.
  revert k cells. induction m as [|m IH]; intros k cells Hlen Hk.
  - exists cells. simpl. repeat split; auto. intros; lia.
  - simpl. unfold Np.getitem.
    destruct (nth_error lower_bound k) as [lb|] eqn:Elb;
      [|apply nth_error_None in Elb; lia].
    destruct (nth_error (position self) k) as [p|] eqn:Ep;
      [|apply nth_error_None in Ep; lia].
    destruct (nth_error (velocity self) k) as [v|] eqn:Ev;
      [|apply nth_error_None in Ev; lia].
    simpl.
    destruct (IH (S k) (Np.setitem cells k (moved lb p v)))
      as (cells' & Hrun & Hlen' & Hset & Hkeep).
    { rewrite setitem_length. exact Hlen. }
    { lia. }
    exists cells'. split; [exact Hrun|]. split; [exact Hlen'|]. split.
    + intros i lb' p' v' Hi Hlb Hp Hv.
      destruct (Nat.eq_dec i k) as [->|Hne].
      * rewrite Hkeep by lia. rewrite setitem_same by lia. congruence.
      * apply Hset; auto. lia.
    + intros i Hi. rewrite Hkeep by lia. apply setitem_other. lia.
Qed.

(** With aligned shapes [update_position] returns, and every cell of
    the new position is the moved cell clipped to its bounds. *)
Lemma update_position_aligned :
  exists new_position,
    update_position np_empty self lower_bound upper_bound =
      Return (with_position self new_position) /\
    length new_position = length (position self) /\
    forall i lb ub p v,
      nth_error lower_bound i = Some lb ->
      nth_error upper_bound i = Some ub ->
      nth_error (position self) i = Some p ->
      nth_error (velocity self) i = Some v ->
      nth_error new_position i =
        Some (Np.clip1 (moved lb p v) (as_float lb) (as_float ub)).
Proof.
  unfold update_position.
  destruct (fill_position_seq (length lower_bound) 0 (empty_like np_empty (position self)))
    as (cells & Hrun & Hlen & Hset & _).
  { unfold empty_like. rewrite length_map, length_seq. reflexivity. }
  { lia. }
  rewrite Hrun. simpl.
  rewrite clip_aligned by (rewrite length_map; congruence).
  simpl. eexists. split; [reflexivity|]. split.
  - rewrite zip3_length; rewrite ?length_map; congruence.
  - intros i lb ub p v Hlb Hub Hp Hv.
    assert (Hi : (i < length lower_bound)%nat).
    { apply nth_error_Some. congruence. }
    rewrite (nth_error_zip3 _ _ _ _ i (moved lb p v) (as_float lb) (as_float ub)).
    + reflexivity.
    + apply Hset; auto. lia.
    + rewrite nth_error_map, Hlb. reflexivity.
    + rewrite nth_error_map, Hub. reflexivity.
Qed.

End Update_position.

Lemma as_float_integral (b : scalar) :
  is_int_or_bool b = true -> exists z, as_float b = inject_Z z.
Proof.
  destruct b as [z|x|[|]|z|x|b]; simpl; intro H; try discriminate.
  - exists z. reflexivity.
  - exists 1%Z. reflexivity.
  - exists 0%Z. reflexivity.
Qed.

(** ** Position update *)

(** C5: after [update_position(lower_bound, upper_bound)] on aligned
    arrays with [lower_bound[i] <= upper_bound[i]] for every [i], the call
    returns and every coordinate [i] of the new position lies in
    [[lower_bound[i], upper_bound[i]]], both ends included. *)
Theorem update_position_within_bounds (np_empty : nat -> Q) (self : Particle)
    (lower_bound upper_bound : list scalar) :
  length lower_bound = length (position self) ->
  length upper_bound = length (position self) ->
  length (velocity self) = length (position self) ->
  (forall i lb ub,
     nth_error lower_bound i = Some lb -> nth_error upper_bound i = Some ub ->
     as_float lb <= as_float ub) ->
  exists self',
    update_position np_empty self lower_bound upper_bound = Return self' /\
    length (position self') = length (position self) /\
    forall i x lb ub,
      nth_error (position self') i = Some x ->
      nth_error lower_bound i = Some lb -> nth_error upper_bound i = Some ub ->
      as_float lb <= x /\ x <= as_float ub.
Proof.
  intros Hl Hu Hv Hle.
  destruct (update_position_aligned np_empty self lower_bound upper_bound Hl Hu Hv)
    as (new & Hrun & Hlen & Hcell).
  exists (with_position self new). split; [exact Hrun|]. split; [exact Hlen|].
  simpl. intros i x lb ub Hx Hlb Hub.
  assert (Hi : (i < length (position self))%nat).
  { rewrite <- Hl. apply nth_error_Some. congruence. }
  destruct (nth_error (position self) i) as [p|] eqn:Ep;
    [|apply nth_error_None in Ep; lia].
  destruct (nth_error (velocity self) i) as [v|] eqn:Ev;
    [|apply nth_error_None in Ev; lia].
  rewrite (Hcell i lb ub p v Hlb Hub Ep Ev) in Hx.
  injection Hx as <-. apply clip1_within. exact (Hle i lb ub Hlb Hub).
Qed.

(** C3, as the code has it: on aligned arrays, a dimension whose lower
    bound has the Python type [int] or [bool] gets
    [position[i] + velocity[i]] rounded to a nearest integer and then
    clipped; the coordinate is then an integer or the upper bound itself,
    so it is an integer whenever the upper bound has an integer value.  A
    dimension whose lower bound is a float gets the unrounded sum,
    clipped. *)
Theorem update_position_rounds_integer_dimensions (np_empty : nat -> Q)
    (self : Particle) (lower_bound upper_bound : list scalar) :
  length lower_bound = length (position self) ->
  length upper_bound = length (position self) ->
  length (velocity self) = length (position self) ->
  exists self',
    update_position np_empty self lower_bound upper_bound = Return self' /\
    forall i lb ub p v,
      nth_error lower_bound i = Some lb -> nth_error upper_bound i = Some ub ->
      nth_error (position self) i = Some p ->
      nth_error (velocity self) i = Some v ->
      (is_int_or_bool lb = true ->
         exists x,
           nth_error (position self') i = Some x /\
           x = Np.clip1 (inject_Z (Np.round (p + v))) (as_float lb) (as_float ub) /\
           Qabs (inject_Z (Np.round (p + v)) - (p + v)) <= 1 # 2 /\
           ((exists z, x = inject_Z z) \/ x = as_float ub) /\
           ((exists zu, as_float ub == inject_Z zu) ->
              exists z, x == inject_Z z) /\
           (is_int_or_bool ub = true -> exists z, x = inject_Z z)) /\
      (is_float lb = true ->
         nth_error (position self') i =
           Some (Np.clip1 (p + v) (as_float lb) (as_float ub))).
Proof.
  intros Hl Hu Hv.
  destruct (update_position_aligned np_empty self lower_bound upper_bound Hl Hu Hv)
    as (new & Hrun & Hlen & Hcell).
  exists (with_position self new). split; [exact Hrun|].
  simpl. intros i lb ub p v Hlb Hub Hp Hvel.
  pose proof (Hcell i lb ub p v Hlb Hub Hp Hvel) as Hnew.
  unfold moved in Hnew. split; intro Hkind.
  - rewrite Hkind in Hnew.
    destruct (as_float_integral lb Hkind) as [zl Hzl].
    set (r := inject_Z (Np.round (p + v))) in *.
    assert (Hcases : (exists z, Np.clip1 r (as_float lb) (as_float ub) = inject_Z z) \/
                     Np.clip1 r (as_float lb) (as_float ub) = as_float ub).
    { destruct (clip1_cases r (as_float lb) (as_float ub)) as [E|[E|E]].
      - left. exists (Np.round (p + v)). exact E.
      - left. exists zl. rewrite E. exact Hzl.
      - right. exact E. }
    exists (Np.clip1 r (as_float lb) (as_float ub)).
    split; [exact Hnew|]. split; [reflexivity|].
    split; [apply round_nearest|]. split; [exact Hcases|]. split.
    + intros [zu Hzu]. destruct Hcases as [[z Hz]|E].
      * exists z. rewrite Hz. reflexivity.
      * exists zu. rewrite E. exact Hzu.
    + intro Hub_kind. destruct (as_float_integral ub Hub_kind) as [zu Hzu].
      destruct Hcases as [Hz|E]; [exact Hz|].
      exists zu. rewrite E. exact Hzu.
  - assert (Hno : is_int_or_bool lb = false) by (destruct lb; simpl in *; congruence).
    rewrite Hno in Hnew. exact Hnew.
Qed.

(** C3, as the claim words it, fails.  With numpy integer bounds
    [[np.int64(0)]] and [[np.int64(5)]] a coordinate 0 with velocity 1/2
    becomes 1/2: nothing is rounded.  With the Python bounds [[0]] and
    [[1.5]] a coordinate 1 with velocity 2 is rounded to 3 and clipped to
    1.5.  Neither result is an integer. *)
Lemma update_position_integer_kind_counterexample :
  (integer_kind (NpInt 0) = true /\ integer_kind (NpInt 5) = true /\
   update_position (fun _ => 0) (sample_cell 0 (1 # 2)) [NpInt 0] [NpInt 5] =
     Return (with_position (sample_cell 0 (1 # 2)) [1 # 2]) /\
   forall z, ~ (1 # 2) == inject_Z z) /\
  (integer_kind (PyInt 0) = true /\
   update_position (fun _ => 0) (sample_cell 1 2) [PyInt 0] [PyFloat (3 # 2)] =
     Return (with_position (sample_cell 1 2) [3 # 2]) /\
   forall z, ~ (3 # 2) == inject_Z z).
Proof.
  split.
  - split; [reflexivity|]. split; [reflexivity|]. split; [reflexivity|].
    intros z. unfold Qeq. simpl. lia.
  - split; [reflexivity|]. split; [reflexivity|].
    intros z. unfold Qeq. simpl. lia.
Qed.

(** ** Personal best *)

Lemma forallb_le_spec (f b : list Q) :
  forallb (fun c => Qle_bool (fst c) (snd c)) (combine f b) = true <->
  componentwise_le f b.
Proof.
  unfold componentwise_le. revert b.
  induction f as [|x f IH]; intros [|y b]; simpl.
  - split; [intros _ [|i] ? ? H; discriminate H | reflexivity].
  - split; [intros _ [|i] ? ? H; discriminate H | reflexivity].
  - split; [intros _ [|i] ? ? _ H; discriminate H | reflexivity].
  - rewrite andb_true_iff, Qle_bool_iff, IH. split.
    + intros [Hxy Hrest] [|i] x' y' Hx Hy; simpl in *.
      * injection Hx as <-. injection Hy as <-. exact Hxy.
      * exact (Hrest i x' y' Hx Hy).
    + intro H. split.
      * apply (H O); reflexivity.
      * intros i x' y' Hx Hy. exact (H (S i) x' y' Hx Hy).
Qed.

Lemma componentwise_le_refl (f : list Q) : componentwise_le f f.
Proof.
  intros i x y Hx Hy. rewrite Hx in Hy. injection Hy as <-. apply Qle_refl.
Qed.

(** C4: for a fitness vector as long as [best_fitness], [set_fitness]
    stores the fitness and overwrites [best_fitness] and [best_position]
    with the new fitness and the current position if every component of
    the new fitness is [<=] that of the previous best, and leaves both
    unchanged if not; a fitness equal to the best replaces it. *)
Theorem set_fitness_weak_dominance (self : Particle) (f : list Q) :
  length f = length (best_fitness self) ->
  exists self',
    set_fitness self f = Return self' /\
    fitness self' = f /\
    position self' = position self /\
    (componentwise_le f (best_fitness self) ->
       best_fitness self' = f /\ best_position self' = position self) /\
    (~ componentwise_le f (best_fitness self) ->
       best_fitness self' = best_fitness self /\
       best_position self' = best_position self) /\
    (f = best_fitness self ->
       best_fitness self' = f /\ best_position self' = position self).
Proof.
  intro Hlen. unfold set_fitness, update_best, Np.all_le. simpl.
  rewrite Hlen, broadcast_shape_same, broadcast_to_same.
  rewrite <- Hlen, broadcast_to_same. simpl.
  destruct (forallb _ (combine f (best_fitness self))) eqn:E.
  - eexists. split; [reflexivity|]. simpl.
    split; [reflexivity|]. split; [reflexivity|]. split; [|split].
    + intros _. split; reflexivity.
    + intro Hn. exfalso. apply Hn. apply forallb_le_spec. exact E.
    + intros _. split; reflexivity.
  - assert (Hn : ~ componentwise_le f (best_fitness self)).
    { intro H. apply forallb_le_spec in H. congruence. }
    eexists. split; [reflexivity|]. simpl.
    split; [reflexivity|]. split; [reflexivity|]. split; [|split].
    + intro H. exfalso. exact (Hn H).
    + intros _. split; reflexivity.
    + intro H. exfalso. apply Hn. rewrite H. apply componentwise_le_refl.
Qed.

(** ** Sorting by crowding distance *)

Lemma insert_In (k x : nat * Q) (l : list (nat * Q)) :
  In x (Np.insert k l) <-> x = k \/ In x l.
Proof.
  induction l as [|h t IH]; simpl.
  - intuition.
  - destruct (Qle_bool (snd k) (snd h)); simpl; rewrite ?IH; intuition.
Qed.

Lemma sort_keys_In (x : nat * Q) (l : list (nat * Q)) :
  In x (Np.sort_keys l) <-> In x l.
Proof.
  induction l as [|k l IH]; simpl.
  - reflexivity.
  - rewrite insert_In, IH. intuition.
Qed.

(** The first key of the sorted list is a least one. *)
Lemma sort_keys_head (l : list (nat * Q)) :
  l <> [] ->
  exists h t, Np.sort_keys l = h :: t /\ In h l /\
              forall k, In k l -> snd h <= snd k.
Proof.
  induction l as [|k l IH]; [congruence|]. intros _.
  destruct l as [|k' l'].
  - exists k, []. simpl. repeat split; auto.
    intros k0 [<-|[]]. apply Qle_refl.
  - destruct IH as (h & t & Hs & Hin & Hleast); [discriminate|].
    change (Np.sort_keys (k :: k' :: l')) with (Np.insert k (Np.sort_keys (k' :: l'))).
    rewrite Hs. simpl Np.insert.
    destruct (Qle_bool (snd k) (snd h)) eqn:E.
    + apply Qle_bool_iff in E.
      exists k, (h :: t). split; [reflexivity|]. split; [left; reflexivity|].
      intros k0 [<-|Hk0]; [apply Qle_refl|].
      apply Qle_trans with (snd h); auto.
    + apply Qle_bool_false in E.
      exists h, (Np.insert k t). split; [reflexivity|]. split; [right; exact Hin|].
      intros k0 [<-|Hk0]; [apply Qlt_le_weak; exact E | auto].
Qed.

Lemma combine_seq_In (a : list Q) (k i : nat) (x : Q) :
  In (i, x) (combine (seq k (length a)) a) <->
  (k <= i)%nat /\ nth_error a (i - k) = Some x.
Proof.
  revert k. induction a as [|y a IH]; intro k; simpl.
  - split; [intros [] | intros [_ H]]. destruct (i - k)%nat; discriminate H.
  - rewrite IH. split.
    + intros [H|[Hk H]].
      * injection H as <- <-. rewrite Nat.sub_diag. split; [lia|reflexivity].
      * split; [lia|]. replace (i - k)%nat with (S (i - S k)) by lia. exact H.
    + intros [Hk H]. destruct (Nat.eq_dec i k) as [->|Hne].
      * rewrite Nat.sub_diag in H. left. simpl in H. congruence.
      * right. split; [lia|].
        replace (i - k)%nat with (S (i - S k)) in H by lia. exact H.
Qed.

Lemma enumerate_In (a : list Q) (i : nat) (x : Q) :
  In (i, x) (Np.enumerate a) <-> nth_error a i = Some x.
Proof.
  unfold Np.enumerate. rewrite combine_seq_In, Nat.sub_0_r.
  split; [intros [_ H]; exact H | intro H; split; [lia | exact H]].
Qed.

Lemma take_in_range {A : Type} (a : list A) (idx : list nat) :
  Forall (fun i => (i < length a)%nat) idx ->
  exists xs, Np.take a idx = Return xs /\
             nth_error xs 0 = match idx with
                              | [] => None
                              | i :: _ => nth_error a i
                              end.
Proof.
  induction 1 as [|i idx Hi _ IH]; simpl.
  - exists []. split; reflexivity.
  - destruct IH as (xs & Hxs & _). unfold Np.getitem.
    destruct (nth_error a i) as [x|] eqn:E;
      [|apply nth_error_None in E; lia].
    simpl. rewrite Hxs. simpl. exists (x :: xs). split; reflexivity.
Qed.

(** On aligned, non-empty arrays the indices [np.argsort] returns are in
    range and start with the index of a least value. *)
Lemma argsort_head (cd : list Q) :
  cd <> [] ->
  exists i d rest,
    Np.argsort cd = i :: rest /\
    nth_error cd i = Some d /\
    (forall x, In x cd -> d <= x) /\
    Forall (fun j => (j < length cd)%nat) (i :: rest).
Proof.
  intro Hne.
  destruct (sort_keys_head (Np.enumerate cd)) as ([i d] & t & Hs & Hin & Hleast).
  { destruct cd; [congruence | discriminate]. }
  assert (Hrange : Forall (fun j => (j < length cd)%nat) (Np.argsort cd)).
  { apply Forall_forall. intros j Hj. apply in_map_iff in Hj.
    destruct Hj as ([j' x] & <- & Hj).
    apply (proj1 (sort_keys_In _ _)) in Hj.
    apply (proj1 (enumerate_In _ _ _)) in Hj. simpl. apply nth_error_Some. congruence. }
  unfold Np.argsort in *. rewrite Hs in *. simpl in Hrange |- *.
  exists i, d, (map fst t).
  split; [reflexivity|]. split; [apply enumerate_In; exact Hin|]. split.
  - intros x Hx. apply In_nth_error in Hx. destruct Hx as [j Hj].
    apply enumerate_In in Hj. exact (Hleast (j, x) Hj).
  - exact Hrange.
Qed.

(** What [crowding_distance_topology] returns with [higher = False]: a
    member whose crowding distance is the least of all. *)
Theorem crowding_distance_lower_least (pareto_front : list Particle)
    (crowding_distances : list Q) :
  length pareto_front = length crowding_distances ->
  pareto_front <> [] ->
  exists i leader d,
    crowding_distance_topology pareto_front crowding_distances false = Return leader /\
    nth_error pareto_front i = Some leader /\
    nth_error crowding_distances i = Some d /\
    forall x, In x crowding_distances -> d <= x.
Proof.
  intros Hlen Hne.
  destruct (argsort_head crowding_distances) as (i & d & rest & Hs & Hd & Hleast & Hrange).
  { intro E. rewrite E in Hlen. destruct pareto_front; [congruence | discriminate]. }
  unfold crowding_distance_topology. rewrite Hs.
  rewrite <- Hlen in Hrange.
  destruct (take_in_range pareto_front (i :: rest) Hrange) as (xs & Hxs & Hhd).
  rewrite Hxs. simpl. unfold Np.getitem. rewrite Hhd.
  destruct (nth_error pareto_front i) as [leader|] eqn:E.
  - exists i, leader, d. auto.
  - apply nth_error_None in E. inversion Hrange; subst. lia.
Qed.

(** What it returns with [higher = True]: the member at the index where
    the reversed distances have their least value, that is the member at
    the mirror image of the least crowded index. *)
Theorem crowding_distance_higher_mirror (pareto_front : list Particle)
    (crowding_distances : list Q) :
  length pareto_front = length crowding_distances ->
  pareto_front <> [] ->
  exists i leader d,
    crowding_distance_topology pareto_front crowding_distances true = Return leader /\
    nth_error pareto_front i = Some leader /\
    nth_error crowding_distances (length crowding_distances - S i) = Some d /\
    forall x, In x crowding_distances -> d <= x.
Proof.
  intros Hlen Hne.
  destruct (crowding_distance_lower_least pareto_front (rev crowding_distances))
    as (i & leader & d & Hrun & Hp & Hd & Hleast).
  { rewrite length_rev. exact Hlen. }
  { exact Hne. }
  exists i, leader, d. split; [exact Hrun|]. split; [exact Hp|]. split.
  - assert (Hi : (i < length crowding_distances)%nat).
    { rewrite <- length_rev. apply nth_error_Some. congruence. }
    rewrite nth_error_rev in Hd.
    apply Nat.ltb_lt in Hi. rewrite Hi in Hd. exact Hd.
  - intros x Hx. apply Hleast. apply in_rev in Hx. exact Hx.
Qed.

Lemma argsort_pair (x y : Q) :
  Np.argsort [x; y] = if Qle_bool x y then [0; 1]%nat else [1; 0]%nat.
Proof.
  unfold Np.argsort, Np.enumerate, Np.sort_keys. simpl.
  destruct (Qle_bool x y); reflexivity.
Qed.

(** C6: on a front of two members with crowding distances [[d0, d1]],
    [d0 > d1], the topology [higher_crowding_distance] returns the member
    with [d0] and [lower_crowding_distance] the member with [d1]. *)
Theorem crowding_distance_two_members (np_exp : Q -> Q) (self : Particle)
    (p0 p1 : Particle) (d0 d1 : Q) (s : Randomizer.rng) :
  d1 < d0 ->
  crowding_distance_topology [p0; p1] [d0; d1] true = Return p0 /\
  crowding_distance_topology [p0; p1] [d0; d1] false = Return p1 /\
  (topology self = "higher_crowding_distance" ->
     get_pareto_leader np_exp self [p0; p1] [d0; d1] s = Return (p0, s)) /\
  (topology self = "lower_crowding_distance" ->
     get_pareto_leader np_exp self [p0; p1] [d0; d1] s = Return (p1, s)).
Proof.
  intro Hlt.
  assert (Hhi : crowding_distance_topology [p0; p1] [d0; d1] true = Return p0).
  { unfold crowding_distance_topology. simpl rev. rewrite argsort_pair.
    rewrite (proj2 (Qle_bool_iff d1 d0)) by (apply Qlt_le_weak; exact Hlt).
    reflexivity. }
  assert (Hlo : crowding_distance_topology [p0; p1] [d0; d1] false = Return p1).
  { unfold crowding_distance_topology. rewrite argsort_pair.
    rewrite (proj2 (Qle_bool_false d0 d1)) by exact Hlt.
    reflexivity. }
  split; [exact Hhi|]. split; [exact Hlo|]. split; intro Ht.
  - unfold get_pareto_leader. rewrite Ht. simpl. rewrite Hhi. reflexivity.
  - unfold get_pareto_leader. rewrite Ht. simpl. rewrite Hlo. reflexivity.
Qed.

(** C1, at a front of three members: with crowding distances [[3, 1, 2]]
    the topology [higher_crowding_distance] returns the second member,
    whose distance 1 is the least, not the first, whose distance 3 is the
    greatest. *)
Theorem crowding_distance_higher_three_members (np_exp : Q -> Q)
    (p0 p1 p2 : Particle) (x v bx bf f : list Q) (m n : nat) (i : Z)
    (s : Randomizer.rng) :
  crowding_distance_topology [p0; p1; p2] [3; 1; 2] true = Return p1 /\
  get_pareto_leader np_exp
    (mkParticle x m n v bx bf f i "higher_crowding_distance")
    [p0; p1; p2] [3; 1; 2] s = Return (p1, s).
Proof. split; reflexivity. Qed.

(** ** Dispatch *)

(** C8: for a topology string that is none of the eight names,
    [get_pareto_leader] raises the [ValueError] whose message carries the
    string, whatever the front, the distances and the random source. *)
Theorem get_pareto_leader_unknown_topology (np_exp : Q -> Q) (self : Particle)
    (pareto_front : list Particle) (crowding_distances : list Q)
    (s : Randomizer.rng) :
  ~ In (topology self) topologies ->
  get_pareto_leader np_exp self pareto_front crowding_distances s =
    Raise (ValueError ("MOPSO: " ++ topology self ++ " not implemented!")).
Proof.
  intro Hnot. unfold get_pareto_leader, topologies in *.
  repeat match goal with
  | |- context [String.eqb (topology self) ?name] =>
      destruct (String.eqb_spec (topology self) name) as [E|_];
      [exfalso; apply Hnot; rewrite E; simpl; tauto|]
  end.
  reflexivity.
Qed.

(** ** Fronts of one or two members *)

(** C9: on a front of exactly one member both random-ring topologies
    return that member, raise nothing and draw nothing. *)
Theorem random_ring_single_member (np_exp : Q -> Q) (self : Particle)
    (member : Particle) (crowding_distances : list Q) (higher : bool)
    (s : Randomizer.rng) :
  topology self = (if higher then "higher_crowding_distance_random_ring"
                   else "lower_crowding_distance_random_ring") ->
  random_ring_topology [member] crowding_distances higher s = Return (member, s) /\
  get_pareto_leader np_exp self [member] crowding_distances s = Return (member, s).
Proof.
  intro Ht. split; [reflexivity|].
  unfold get_pareto_leader. rewrite Ht. destruct higher; reflexivity.
Qed.

Lemma index_of_two (u : Q) :
  Randomizer.index_of 2 (Randomizer.frac u) =
    if Qle_bool (1 # 2) (Randomizer.frac u) then 1%nat else 0%nat.
Proof.
  unfold Randomizer.index_of.
  destruct (frac_range u) as [H0 H1].
  change (inject_Z (Z.of_nat 2)) with 2.
  destruct (Qle_bool (1 # 2) (Randomizer.frac u)) eqn:E.
  - apply Qle_bool_iff in E.
    rewrite (Qfloor_unique _ 1); [reflexivity | |].
    + change (inject_Z 1) with 1. lra.
    + change (inject_Z (1 + 1)) with 2. lra.
  - apply Qle_bool_false in E.
    rewrite (Qfloor_unique _ 0); [reflexivity | |].
    + change (inject_Z 0) with 0. lra.
    + change (inject_Z (0 + 1)) with 1. lra.
Qed.

(** C7: for one crowding distance [boltzmann] returns [[1]] without a
    draw; for two it takes one draw and returns [[1, 0]] when the variate
    falls in the lower half of [[0, 1)] and [[0, 1]] when it falls in the
    upper half, so one of the two one-hot vectors, each for half of the
    draws, and never a blend. *)
Theorem boltzmann_small_fronts (np_exp : Q -> Q) (higher : bool) :
  (forall d s, boltzmann np_exp [d] higher s = Return ([1], s)) /\
  (forall d0 d1 u s,
     (Randomizer.frac u < 1 # 2 ->
        boltzmann np_exp [d0; d1] higher (u :: s) = Return ([1; 0], s)) /\
     (1 # 2 <= Randomizer.frac u ->
        boltzmann np_exp [d0; d1] higher (u :: s) = Return ([0; 1], s)) /\
     (boltzmann np_exp [d0; d1] higher (u :: s) = Return ([1; 0], s) \/
      boltzmann np_exp [d0; d1] higher (u :: s) = Return ([0; 1], s))).
Proof.
  split; [reflexivity|].
  intros d0 d1 u s.
  assert (Hrun : boltzmann np_exp [d0; d1] higher (u :: s) =
                 Return (if Qle_bool (1 # 2) (Randomizer.frac u)
                         then [0; 1] else [1; 0], s)).
  { unfold boltzmann. simpl.
    unfold Randomizer.choice, Randomizer.integers, Randomizer.bind,
      Randomizer.random, Randomizer.ret, Randomizer.lift.
    simpl length. rewrite index_of_two.
    destruct (Qle_bool (1 # 2) (Randomizer.frac u)); reflexivity. }
  rewrite Hrun. split; [|split].
  - intro H. rewrite (proj2 (Qle_bool_false _ _) H). reflexivity.
  - intro H. rewrite (proj2 (Qle_bool_iff _ _) H). reflexivity.
  - destruct (Qle_bool (1 # 2) (Randomizer.frac u)); auto.
Qed.

(** C10: for at most two crowding distances [boltzmann] does the same
    with [higher = True] as with [higher = False], on every state of the
    random source, and so do the two weighted topologies. *)
Theorem boltzmann_ignores_higher_on_small_fronts (np_exp : Q -> Q)
    (self_higher self_lower : Particle) (pareto_front : list Particle)
    (crowding_distances : list Q) (s : Randomizer.rng) :
  (length crowding_distances <= 2)%nat ->
  topology self_higher = "higher_weighted_crowding_distance" ->
  topology self_lower = "lower_weighted_crowding_distance" ->
  boltzmann np_exp crowding_distances true s =
    boltzmann np_exp crowding_distances false s /\
  weighted_crowding_distance_topology np_exp pareto_front crowding_distances true s =
    weighted_crowding_distance_topology np_exp pareto_front crowding_distances false s /\
  get_pareto_leader np_exp self_higher pareto_front crowding_distances s =
    get_pareto_leader np_exp self_lower pareto_front crowding_distances s.
Proof.
  intros Hlen Hh Hl.
  assert (Hb : boltzmann np_exp crowding_distances true =
               boltzmann np_exp crowding_distances false).
  { destruct crowding_distances as [|a [|b [|c r]]]; try reflexivity.
    simpl in Hlen. lia. }
  assert (Hw : weighted_crowding_distance_topology np_exp pareto_front crowding_distances true =
               weighted_crowding_distance_topology np_exp pareto_front crowding_distances false).
  { unfold weighted_crowding_distance_topology. rewrite Hb. reflexivity. }
  split; [rewrite Hb; reflexivity|]. split; [rewrite Hw; reflexivity|].
  unfold get_pareto_leader. rewrite Hh, Hl. simpl. rewrite Hw. reflexivity.
Qed.

(** ** The random ring *)

(** One turn of the [while] loop: [draw_distinct] draws
    [rng.integers(0, pareto_len, size = 2)] and goes round again when the
    two indices are equal. *)
Lemma draw_distinct_loop (pareto_len : nat) (s : Randomizer.rng) :
  (0 < pareto_len)%nat ->
  draw_distinct pareto_len s =
    Randomizer.bind (Randomizer.integers2 pareto_len)
      (fun indexes =>
         if Nat.eqb (fst indexes) (snd indexes) then draw_distinct pareto_len
         else Randomizer.ret indexes) s.
Proof.
  intro Hpos. destruct pareto_len as [|[|n]]; [lia | reflexivity |].
  destruct s as [|u [|v s']]; try reflexivity.
  unfold Randomizer.bind, Randomizer.integers2, Randomizer.integers,
    Randomizer.random, Randomizer.ret.
  simpl.
  destruct (Nat.eqb _ _); reflexivity.
Qed.

Lemma index_of_range (n : nat) (u : Q) :
  (0 < n)%nat -> (Randomizer.index_of n (Randomizer.frac u) < n)%nat.
Proof.
  intro Hn. unfold Randomizer.index_of.
  destruct (frac_range u) as [H0 H1].
  set (f := Randomizer.frac u) in *.
  set (N := inject_Z (Z.of_nat n)).
  assert (HN : 0 < N).
  { unfold N. change 0 with (inject_Z 0). rewrite <- Zlt_Qlt. lia. }
  assert (Hlo : (0 <= Qfloor (f * N))%Z).
  { change 0%Z with (Qfloor 0). apply Qfloor_resp_le.
    apply Qmult_le_0_compat; [exact H0 | apply Qlt_le_weak; exact HN]. }
  assert (Hhi : (Qfloor (f * N) < Z.of_nat n)%Z).
  { rewrite Zlt_Qlt. apply Qle_lt_trans with (f * N); [apply Qfloor_le|].
    fold N. setoid_replace N with (1 * N) at 2 by ring.
    apply Qmult_lt_compat_r; assumption. }
  lia.
Qed.

(** The loop leaves with two distinct indices of the front. *)
Lemma draw_distinct_spec (pareto_len : nat) (s s' : Randomizer.rng)
    (i0 i1 : nat) :
  (0 < pareto_len)%nat ->
  draw_distinct pareto_len s = Return ((i0, i1), s') ->
  i0 <> i1 /\ (i0 < pareto_len)%nat /\ (i1 < pareto_len)%nat.
Proof.
  intro Hn.
  assert (H : forall s,
    (draw_distinct pareto_len s = Return ((i0, i1), s') ->
     i0 <> i1 /\ (i0 < pareto_len)%nat /\ (i1 < pareto_len)%nat) /\
    (forall u, draw_distinct pareto_len (u :: s) = Return ((i0, i1), s') ->
     i0 <> i1 /\ (i0 < pareto_len)%nat /\ (i1 < pareto_len)%nat)).
  { intro tape. induction tape as [|v t [IHt IHvt]].
    - split; [|intro u]; simpl; discriminate.
    - split; [apply IHvt|]. intros u. simpl.
      destruct (Nat.eqb_spec (Randomizer.index_of pareto_len (Randomizer.frac u))
                  (Randomizer.index_of pareto_len (Randomizer.frac v))) as [_|Hne].
      + exact IHt.
      + intro E. injection E as <- <- _.
        split; [exact Hne|]. split; apply index_of_range; exact Hn. }
  exact (proj1 (H s)).
Qed.

Section Ring.

Variables a b : nat.
Variable sel : nat -> bool.
Hypothesis a_lt_b : (a < b)%nat.
Hypothesis sel_spec : forall i, sel i = true <-> i = a \/ i = b.

Lemma selected_none (front : list Particle) (k : nat) :
  (b < k)%nat -> selected sel front k = [].
Proof.
  unfold selected. revert k. induction front as [|x front IH]; intros k Hk; simpl.
  - reflexivity.
  - destruct (sel k) eqn:E.
    + apply sel_spec in E. lia.
    + apply IH. lia.
Qed.

Lemma selected_one (front : list Particle) (k : nat) (pb : Particle) :
  (a < k <= b)%nat -> nth_error front (b - k) = Some pb ->
  selected sel front k = [pb].
Proof.
  unfold selected. revert k. induction front as [|x front IH]; intros k Hk Hb; simpl.
  - destruct (b - k)%nat; discriminate Hb.
  - destruct (Nat.eq_dec k b) as [->|Hne].
    + rewrite (proj2 (sel_spec b)) by auto. simpl.
      rewrite Nat.sub_diag in Hb. simpl in Hb. injection Hb as ->.
      f_equal. apply selected_none. lia.
    + destruct (sel k) eqn:E; [apply sel_spec in E; lia|].
      apply IH; [lia|].
      replace (b - k)%nat with (S (b - S k)) in Hb by lia. exact Hb.
Qed.

Lemma selected_two (front : list Particle) (k : nat) (pa pb : Particle) :
  (k <= a)%nat ->
  nth_error front (a - k) = Some pa -> nth_error front (b - k) = Some pb ->
  selected sel front k = [pa; pb].
Proof.
  unfold selected. revert k. induction front as [|x front IH]; intros k Hk Ha Hb; simpl.
  - destruct (a - k)%nat; discriminate Ha.
  - destruct (Nat.eq_dec k a) as [->|Hne].
    + rewrite (proj2 (sel_spec a)) by auto. simpl.
      rewrite Nat.sub_diag in Ha. simpl in Ha. injection Ha as ->.
      f_equal. apply selected_one; [lia|].
      replace (b - a)%nat with (S (b - S a)) in Hb by lia. exact Hb.
    + destruct (sel k) eqn:E; [apply sel_spec in E; lia|].
      apply IH; [lia| |].
      * replace (a - k)%nat with (S (a - S k)) in Ha by lia. exact Ha.
      * replace (b - k)%nat with (S (b - S k)) in Hb by lia. exact Hb.
Qed.

End Ring.

Lemma in_indexes_spec (i0 i1 a b : nat) :
  (i0 = a /\ i1 = b) \/ (i0 = b /\ i1 = a) ->
  forall i, in_indexes (i0, i1) i = true <-> i = a \/ i = b.
Proof.
  intros H i. unfold in_indexes. simpl.
  rewrite orb_true_iff, !Nat.eqb_eq. intuition congruence.
Qed.

(** The list comprehension of [random_ring_topology] lists the two
    sampled members in the order of the front, whatever the order of the
    draw. *)
Lemma ring_particles (pareto_front : list Particle) (i0 i1 a b : nat)
    (pa pb : Particle) :
  (a < b)%nat ->
  (i0 = a /\ i1 = b) \/ (i0 = b /\ i1 = a) ->
  nth_error pareto_front a = Some pa -> nth_error pareto_front b = Some pb ->
  map snd (filter (fun c => in_indexes (i0, i1) (fst c))
             (combine (seq 0 (length pareto_front)) pareto_front)) = [pa; pb].
Proof.
  intros Hab Hi Ha Hb.
  apply (selected_two a b (in_indexes (i0, i1)) Hab (in_indexes_spec i0 i1 a b Hi)).
  - lia.
  - rewrite Nat.sub_0_r. exact Ha.
  - rewrite Nat.sub_0_r. exact Hb.
Qed.

(** A draw in ascending order: the leader is the sampled member with the
    higher (the lower) crowding distance. *)
Theorem ring_leader_ascending (pareto_front : list Particle)
    (crowding_distances : list Q) (higher : bool) (a b : nat)
    (pa pb : Particle) (da db : Q) :
  (a < b)%nat ->
  nth_error pareto_front a = Some pa -> nth_error pareto_front b = Some pb ->
  nth_error crowding_distances a = Some da ->
  nth_error crowding_distances b = Some db ->
  ring_leader pareto_front crowding_distances higher (a, b) =
    Return (if higher
            then (if Qle_bool db da then pa else pb)
            else (if Qle_bool da db then pa else pb)).
Proof.
  intros Hab Ha Hb Hda Hdb. unfold ring_leader.
  rewrite (ring_particles pareto_front a b a b pa pb) by auto.
  simpl. unfold Np.getitem. rewrite Hda, Hdb. simpl.
  destruct higher; simpl rev; rewrite argsort_pair;
    match goal with |- context [Qle_bool ?x ?y] => destruct (Qle_bool x y) end;
    reflexivity.
Qed.

(** A draw in descending order: the particles are still listed in the
    order of the front while the distances follow the draw, and the leader
    is the one the opposite topology would choose. *)
Theorem ring_leader_descending (pareto_front : list Particle)
    (crowding_distances : list Q) (higher : bool) (a b : nat)
    (pa pb : Particle) (da db : Q) :
  (a < b)%nat ->
  nth_error pareto_front a = Some pa -> nth_error pareto_front b = Some pb ->
  nth_error crowding_distances a = Some da ->
  nth_error crowding_distances b = Some db ->
  ring_leader pareto_front crowding_distances higher (b, a) =
    ring_leader pareto_front crowding_distances (negb higher) (a, b).
Proof.
  intros Hab Ha Hb Hda Hdb.
  rewrite (ring_leader_ascending _ _ _ a b pa pb da db) by assumption.
  unfold ring_leader.
  rewrite (ring_particles pareto_front b a a b pa pb) by auto.
  simpl. unfold Np.getitem. rewrite Hda, Hdb. simpl.
  destruct higher; simpl rev; rewrite argsort_pair;
    match goal with |- context [Qle_bool ?x ?y] => destruct (Qle_bool x y) end;
    reflexivity.
Qed.

(** C2, at a draw in descending order: on the front [[p0, p1]] with
    crowding distances [[1, 2]] and the sampled indices [(1, 0)], the
    topology [higher_crowding_distance_random_ring] returns [p0], the
    member with the lower distance, and
    [lower_crowding_distance_random_ring] returns [p1], the member with
    the higher one. *)
Theorem random_ring_descending_draw (np_exp : Q -> Q) (p0 p1 : Particle)
    (x v bx bf f : list Q) (m n : nat) (i : Z) :
  Randomizer.integers2 2 [1 # 2; 0] = Return ((1%nat, 0%nat), []) /\
  random_ring_topology [p0; p1] [1; 2] true [1 # 2; 0] = Return (p0, []) /\
  random_ring_topology [p0; p1] [1; 2] false [1 # 2; 0] = Return (p1, []) /\
  get_pareto_leader np_exp
    (mkParticle x m n v bx bf f i "higher_crowding_distance_random_ring")
    [p0; p1] [1; 2] [1 # 2; 0] = Return (p0, []) /\
  get_pareto_leader np_exp
    (mkParticle x m n v bx bf f i "lower_crowding_distance_random_ring")
    [p0; p1] [1; 2] [1 # 2; 0] = Return (p1, []).
Proof. repeat split; reflexivity. Qed.

(** ** The statements at sample inputs *)

Lemma update_position_within_bounds_witness :
  exists self',
    update_position (fun _ => 0) sample_particle sample_lower_bound
      sample_upper_bound = Return self' /\
    length (position self') = length (position sample_particle) /\
    forall i x lb ub,
      nth_error (position self') i = Some x ->
      nth_error sample_lower_bound i = Some lb ->
      nth_error sample_upper_bound i = Some ub ->
      as_float lb <= x /\ x <= as_float ub.
Proof.
  apply (update_position_within_bounds (fun _ => 0) sample_particle
           sample_lower_bound sample_upper_bound); try reflexivity.
  intros [|[|[|i]]] lb ub Hl Hu; simpl in Hl, Hu; try discriminate;
    injection Hl as <-; injection Hu as <-; unfold Qle; simpl; lia.
Defined.

Lemma update_position_rounds_integer_dimensions_witness :
  exists self' x,
    update_position (fun _ => 0) (with_velocity sample_particle [1 # 4; 3 # 2])
      sample_lower_bound sample_upper_bound = Return self' /\
    nth_error (position self') 1 = Some x /\
    x = Np.clip1 (inject_Z (Np.round (3 + (3 # 2)))) (inject_Z 0) (inject_Z 5) /\
    Np.round (3 + (3 # 2)) = 4%Z /\
    (exists z, x = inject_Z z) /\
    nth_error (position self') 0 =
      Some (Np.clip1 ((1 # 2) + (1 # 4)) 0 1).
Proof.
  destruct (update_position_rounds_integer_dimensions (fun _ => 0)
              (with_velocity sample_particle [1 # 4; 3 # 2])
              sample_lower_bound sample_upper_bound eq_refl eq_refl eq_refl)
    as (self' & Hrun & Hcell).
  destruct (Hcell 1%nat (PyInt 0) (PyInt 5) 3 (3 # 2) eq_refl eq_refl eq_refl eq_refl)
    as [Hint _].
  destruct (Hint eq_refl) as (x & Hx & Hval & _ & _ & _ & Hz).
  destruct (Hcell 0%nat (PyFloat 0) (PyFloat 1) (1 # 2) (1 # 4)
              eq_refl eq_refl eq_refl eq_refl) as [_ Hfloat].
  exists self', x. split; [exact Hrun|]. split; [exact Hx|].
  split; [exact Hval|]. split; [reflexivity|].
  split; [exact (Hz eq_refl) | exact (Hfloat eq_refl)].
Defined.

Lemma set_fitness_weak_dominance_witness :
  exists self',
    set_fitness sample_particle [3; 4] = Return self' /\
    fitness self' = [3; 4] /\
    position self' = position sample_particle /\
    (componentwise_le [3; 4] (best_fitness sample_particle) ->
       best_fitness self' = [3; 4] /\
       best_position self' = position sample_particle) /\
    (~ componentwise_le [3; 4] (best_fitness sample_particle) ->
       best_fitness self' = best_fitness sample_particle /\
       best_position self' = best_position sample_particle) /\
    ([3; 4] = best_fitness sample_particle ->
       best_fitness self' = [3; 4] /\
       best_position self' = position sample_particle).
Proof.
  apply (set_fitness_weak_dominance sample_particle [3; 4]). reflexivity.
Defined.

Lemma crowding_distance_two_members_witness :
  1 < 2 /\
  crowding_distance_topology [sample_member 0; sample_member 1] [2; 1] true =
    Return (sample_member 0) /\
  crowding_distance_topology [sample_member 0; sample_member 1] [2; 1] false =
    Return (sample_member 1).
Proof.
  split; [reflexivity|].
  destruct (crowding_distance_two_members (fun x => x) sample_particle
              (sample_member 0) (sample_member 1) 2 1 []) as (Hhi & Hlo & _).
  - reflexivity.
  - split; assumption.
Defined.

Lemma get_pareto_leader_unknown_topology_witness :
  ~ In "ring" topologies /\
  get_pareto_leader (fun x => x) (sample_with_topology "ring")
    [sample_member 0; sample_member 1] [2; 1] [1 # 3] =
    Raise (ValueError "MOPSO: ring not implemented!").
Proof.
  assert (H : ~ In (topology (sample_with_topology "ring")) topologies).
  { simpl. intuition discriminate. }
  split; [exact H|].
  apply (get_pareto_leader_unknown_topology (fun x => x) (sample_with_topology "ring")
           [sample_member 0; sample_member 1] [2; 1] [1 # 3] H).
Defined.

Lemma random_ring_single_member_witness :
  random_ring_topology [sample_member 4] [9] true [1 # 3] =
    Return (sample_member 4, [1 # 3]) /\
  get_pareto_leader (fun x => x)
    (sample_with_topology "higher_crowding_distance_random_ring")
    [sample_member 4] [9] [1 # 3] = Return (sample_member 4, [1 # 3]).
Proof.
  apply (random_ring_single_member (fun x => x)
           (sample_with_topology "higher_crowding_distance_random_ring")
           (sample_member 4) [9] true [1 # 3]).
  reflexivity.
Defined.

Lemma boltzmann_small_fronts_witness :
  boltzmann (fun x => x) [5] true [3 # 4] = Return ([1], [3 # 4]) /\
  boltzmann (fun x => x) [5; 7] true [3 # 4] = Return ([0; 1], []) /\
  boltzmann (fun x => x) [5; 7] true [1 # 4] = Return ([1; 0], []).
Proof.
  destruct (boltzmann_small_fronts (fun x => x) true) as [Hone Htwo].
  split; [apply Hone|]. split.
  - apply (Htwo 5 7 (3 # 4) []). vm_compute. discriminate.
  - apply (Htwo 5 7 (1 # 4) []). vm_compute. reflexivity.
Defined.

Lemma boltzmann_ignores_higher_on_small_fronts_witness :
  boltzmann (fun x => x) [5; 7] true [3 # 4] =
    boltzmann (fun x => x) [5; 7] false [3 # 4] /\
  weighted_crowding_distance_topology (fun x => x)
    [sample_member 0; sample_member 1] [5; 7] true [3 # 4] =
    weighted_crowding_distance_topology (fun x => x)
      [sample_member 0; sample_member 1] [5; 7] false [3 # 4] /\
  get_pareto_leader (fun x => x)
    (sample_with_topology "higher_weighted_crowding_distance")
    [sample_member 0; sample_member 1] [5; 7] [3 # 4] =
    get_pareto_leader (fun x => x)
      (sample_with_topology "lower_weighted_crowding_distance")
      [sample_member 0; sample_member 1] [5; 7] [3 # 4].
Proof.
  apply (boltzmann_ignores_higher_on_small_fronts (fun x => x)
           (sample_with_topology "higher_weighted_crowding_distance")
           (sample_with_topology "lower_weighted_crowding_distance")
           [sample_member 0; sample_member 1] [5; 7] [3 # 4]).
  - simpl. lia.
  - reflexivity.
  - reflexivity.
Defined.

(** * Further properties of the particle *)

(** ** Broadcasting *)

Lemma broadcast_shape_spec (m k n : nat) :
  Np.broadcast_shape m k = Some n ->
  (m = n /\ k = n) \/ (m = 1%nat /\ k = n) \/ (k = 1%nat /\ m = n).
Proof.
  unfold Np.broadcast_shape.
  destruct (Nat.eqb_spec m k) as [->|_].
  - intro H. injection H as <-. auto.
  - destruct (Nat.eqb_spec m 1) as [->|_].
    + intro H. injection H as <-. auto.
    + destruct (Nat.eqb_spec k 1) as [->|_]; [|discriminate].
      intro H. injection H as <-. auto.
Qed.

Lemma broadcast_to_nth {A : Type} (n : nat) (a : list A) (i : nat) (x : A) :
  length a = n \/ length a = 1%nat ->
  (i < n)%nat ->
  nth_error a i = Some x ->
  nth_error (Np.broadcast_to n a) i = Some x.
Proof.
  intros Hshape Hi Hx. unfold Np.broadcast_to.
  destruct (Nat.eqb_spec (length a) n) as [_|Hne]; [exact Hx|].
  destruct Hshape as [H|H]; [congruence|].
  destruct a as [|x0 [|x1 a]]; simpl in H; try discriminate.
  destruct i as [|i]; simpl in Hx.
  - injection Hx as ->. destruct n; [lia | reflexivity].
  - destruct i; discriminate Hx.
Qed.

Lemma broadcast_to_length {A : Type} (n : nat) (a : list A) :
  length a = n \/ length a = 1%nat -> length (Np.broadcast_to n a) = n.
Proof.
  intros Hshape. unfold Np.broadcast_to.
  destruct (Nat.eqb_spec (length a) n) as [E|Hne]; [exact E|].
  destruct Hshape as [H|H]; [congruence|].
  destruct a as [|x0 a]; [discriminate H|]. apply repeat_length.
Qed.

(** [np.all(a <= b)] holds only if [a[i] <= b[i]] wherever both exist. *)
Lemma all_le_sound (a b : list Q) :
  Np.all_le a b = Return true -> componentwise_le a b.
Proof.
  unfold Np.all_le.
  destruct (Np.broadcast_shape (length a) (length b)) as [n|] eqn:E;
    [|discriminate].
  intro H. injection H as H. apply forallb_le_spec in H.
  apply broadcast_shape_spec in E.
  intros i x y Hx Hy.
  assert (Hia : (i < length a)%nat) by (apply nth_error_Some; congruence).
  assert (Hib : (i < length b)%nat) by (apply nth_error_Some; congruence).
  apply (H i).
  - apply broadcast_to_nth; [lia | lia | exact Hx].
  - apply broadcast_to_nth; [lia | lia | exact Hy].
Qed.

Lemma all_le_refl (f : list Q) : Np.all_le f f = Return true.
Proof.
  unfold Np.all_le. rewrite broadcast_shape_same, broadcast_to_same.
  f_equal. apply forallb_le_spec. apply componentwise_le_refl.
Qed.

(** ** Personal best, continued *)

(** Whenever [set_fitness] returns, the fitness is stored and no component
    of [best_fitness] has grown: the personal best never gets worse. *)
Theorem set_fitness_never_worsens (self self' : Particle) (f : list Q) :
  set_fitness self f = Return self' ->
  fitness self' = f /\
  componentwise_le (best_fitness self') (best_fitness self).
Proof.
  unfold set_fitness, update_best. simpl.
  destruct (Np.all_le f (best_fitness self)) as [improved| |] eqn:E;
    simpl; try discriminate.
  intro H. injection H as <-. destruct improved; simpl.
  - split; [reflexivity|]. apply all_le_sound. exact E.
  - split; [reflexivity|]. apply componentwise_le_refl.
Qed.

(** Reporting the same fitness a second time changes nothing. *)
Theorem set_fitness_idempotent (self self' : Particle) (f : list Q) :
  set_fitness self f = Return self' ->
  set_fitness self' f = Return self'.
Proof.
  unfold set_fitness, update_best. simpl.
  destruct (Np.all_le f (best_fitness self)) as [improved| |] eqn:E;
    simpl; try discriminate.
  intro H. injection H as <-. destruct improved; simpl.
  - rewrite all_le_refl. reflexivity.
  - rewrite E. reflexivity.
Qed.

Lemma set_fitness_never_worsens_witness :
  set_fitness sample_particle [5; 3] = Return (with_fitness sample_particle [5; 3]) /\
  fitness (with_fitness sample_particle [5; 3]) = [5; 3] /\
  componentwise_le (best_fitness (with_fitness sample_particle [5; 3]))
    (best_fitness sample_particle).
Proof.
  assert (H : set_fitness sample_particle [5; 3] =
              Return (with_fitness sample_particle [5; 3])) by reflexivity.
  split; [exact H|].
  exact (set_fitness_never_worsens sample_particle _ [5; 3] H).
Defined.

Lemma set_fitness_idempotent_witness :
  set_fitness sample_particle [3; 4] =
    Return (with_best (with_fitness sample_particle [3; 4])
              (position sample_particle) [3; 4]) /\
  set_fitness (with_best (with_fitness sample_particle [3; 4])
                 (position sample_particle) [3; 4]) [3; 4] =
    Return (with_best (with_fitness sample_particle [3; 4])
              (position sample_particle) [3; 4]).
Proof.
  assert (H : set_fitness sample_particle [3; 4] =
              Return (with_best (with_fitness sample_particle [3; 4])
                        (position sample_particle) [3; 4])) by reflexivity.
  split; [exact H|].
  exact (set_fitness_idempotent sample_particle _ [3; 4] H).
Defined.

(** ** Position update, continued *)

(** The loop over [range(k, k + m)], for any lengths that reach that far. *)
Lemma fill_position_range (self : Particle) (lower_bound : list scalar)
    (m k : nat) (cells : list Q) :
  (k + m <= length lower_bound)%nat ->
  (k + m <= length (position self))%nat ->
  (k + m <= length (velocity self))%nat ->
  (k + m <= length cells)%nat ->
  exists cells',
    fill_position self lower_bound (seq k m) cells = Return cells' /\
    length cells' = length cells /\
    (forall i lb p v, (k <= i < k + m)%nat ->
       nth_error lower_bound i = Some lb ->
       nth_error (position self) i = Some p ->
       nth_error (velocity self) i = Some v ->
       nth_error cells' i = Some (moved lb p v)) /\
    (forall i, (i < k \/ k + m <= i)%nat ->
       nth_error cells' i = nth_error cells i).
Proof.
  revert k cells. induction m as [|m IH]; intros k cells Hl Hp Hv Hc.
  - exists cells. simpl. repeat split; auto. intros; lia.
  - simpl. unfold Np.getitem.
    destruct (nth_error lower_bound k) as [lb|] eqn:Elb;
      [|apply nth_error_None in Elb; lia].
    destruct (nth_error (position self) k) as [p|] eqn:Ep;
      [|apply nth_error_None in Ep; lia].
    destruct (nth_error (velocity self) k) as [v|] eqn:Ev;
      [|apply nth_error_None in Ev; lia].
    simpl.
    destruct (IH (S k) (Np.setitem cells k (moved lb p v)))
      as (cells' & Hrun & Hlen' & Hset & Hkeep);
      rewrite ?setitem_length; try lia.
    exists cells'. split; [exact Hrun|].
    split; [rewrite Hlen'; apply setitem_length|]. split.
    + intros i lb' p' v' Hi Hlb Hpos Hvel.
      destruct (Nat.eq_dec i k) as [->|Hne].
      * rewrite Hkeep by lia. rewrite setitem_same by lia. congruence.
      * apply Hset; auto. lia.
    + intros i Hi. rewrite Hkeep by lia. apply setitem_other. lia.
Qed.

(** The loop runs off the position when the bounds are longer. *)
Lemma fill_position_overrun (self : Particle) (lower_bound : list scalar)
    (m k : nat) (cells : list Q) :
  (k <= length (position self) < k + m)%nat ->
  (k + m <= length lower_bound)%nat ->
  fill_position self lower_bound (seq k m) cells = Raise IndexError.
Proof.
  revert k cells. induction m as [|m IH]; intros k cells Hp Hl; [lia|].
  simpl. unfold Np.getitem.
  destruct (nth_error lower_bound k) as [lb|] eqn:Elb;
    [|apply nth_error_None in Elb; lia].
  destruct (nth_error (position self) k) as [p|] eqn:Ep; [|reflexivity].
  destruct (nth_error (velocity self) k) as [v|] eqn:Ev; [|reflexivity].
  simpl. apply IH; [|lia].
  assert (k < length (position self))%nat by (apply nth_error_Some; congruence).
  lia.
Qed.

(** With more bounds than coordinates [update_position] raises
    [IndexError], whatever the velocity and the upper bounds are. *)
Theorem update_position_too_many_bounds (np_empty : nat -> Q) (self : Particle)
    (lower_bound upper_bound : list scalar) :
  (length (position self) < length lower_bound)%nat ->
  update_position np_empty self lower_bound upper_bound = Raise IndexError.
Proof.
  intro H. unfold update_position.
  rewrite fill_position_overrun; [reflexivity | lia | lia].
Qed.

Lemma update_position_too_many_bounds_witness :
  update_position (fun _ => 0) sample_particle
    [PyFloat 0; PyInt 0; PyFloat 0] [PyFloat 1; PyInt 5; PyFloat 1] =
    Raise IndexError.
Proof.
  apply (update_position_too_many_bounds (fun _ => 0) sample_particle).
  simpl. lia.
Defined.

(** On aligned shapes the new position does not depend on what the
    [np.empty_like] array held: every cell is written before it is read. *)
Theorem update_position_ignores_empty_cells (np_empty np_empty' : nat -> Q)
    (self : Particle) (lower_bound upper_bound : list scalar) :
  length lower_bound = length (position self) ->
  length upper_bound = length (position self) ->
  length (velocity self) = length (position self) ->
  update_position np_empty self lower_bound upper_bound =
    update_position np_empty' self lower_bound upper_bound.
Proof.
  intros Hl Hu Hv.
  destruct (update_position_aligned np_empty self lower_bound upper_bound Hl Hu Hv)
    as (new & Hrun & Hlen & Hcell).
  destruct (update_position_aligned np_empty' self lower_bound upper_bound Hl Hu Hv)
    as (new' & Hrun' & Hlen' & Hcell').
  rewrite Hrun, Hrun'. f_equal. f_equal.
  apply nth_error_ext. intro i.
  destruct (Nat.lt_ge_cases i (length (position self))) as [Hi|Hi].
  - destruct (nth_error lower_bound i) as [lb|] eqn:Elb;
      [|apply nth_error_None in Elb; lia].
    destruct (nth_error upper_bound i) as [ub|] eqn:Eub;
      [|apply nth_error_None in Eub; lia].
    destruct (nth_error (position self) i) as [p|] eqn:Ep;
      [|apply nth_error_None in Ep; lia].
    destruct (nth_error (velocity self) i) as [v|] eqn:Ev;
      [|apply nth_error_None in Ev; lia].
    rewrite (Hcell i lb ub p v), (Hcell' i lb ub p v); auto.
  - rewrite (proj2 (nth_error_None new i)) by lia.
    rewrite (proj2 (nth_error_None new' i)) by lia. reflexivity.
Qed.

Lemma update_position_ignores_empty_cells_witness :
  update_position (fun _ => 0) sample_particle sample_lower_bound
    sample_upper_bound =
  update_position (fun i => inject_Z (Z.of_nat i) + 7) sample_particle
    sample_lower_bound sample_upper_bound.
Proof.
  apply (update_position_ignores_empty_cells (fun _ => 0)
           (fun i => inject_Z (Z.of_nat i) + 7) sample_particle
           sample_lower_bound sample_upper_bound); reflexivity.
Defined.

Lemma clip1_inside (x lo hi : Q) :
  lo <= x -> x <= hi -> Np.clip1 x lo hi == x.
Proof.
  intros Hlo Hhi. unfold Np.clip1, Np.minimum, Np.maximum.
  destruct (Qle_bool x lo) eqn:E.
  - apply Qle_bool_iff in E.
    assert (Heq : lo == x) by (apply Qle_antisym; assumption).
    destruct (Qle_bool lo hi) eqn:E'; [exact Heq|].
    apply Qle_bool_false in E'. exfalso.
    apply (Qlt_not_le _ _ E'). rewrite Heq. exact Hhi.
  - rewrite (proj2 (Qle_bool_iff x hi) Hhi). reflexivity.
Qed.

Lemma clip1_below (x lo hi : Q) :
  x < lo -> lo <= hi -> Np.clip1 x lo hi = lo.
Proof.
  intros Hx Hb. unfold Np.clip1, Np.minimum, Np.maximum.
  rewrite (proj2 (Qle_bool_iff x lo)) by (apply Qlt_le_weak; exact Hx).
  rewrite (proj2 (Qle_bool_iff lo hi) Hb). reflexivity.
Qed.

Lemma clip1_above (x lo hi : Q) :
  hi < x -> lo <= hi -> Np.clip1 x lo hi = hi.
Proof.
  intros Hx Hb. unfold Np.clip1, Np.minimum, Np.maximum.
  rewrite (proj2 (Qle_bool_false x lo))
    by (apply Qle_lt_trans with hi; assumption).
  rewrite (proj2 (Qle_bool_false x hi) Hx). reflexivity.
Qed.

(** Rounding stays between integer bounds. *)
Lemma round_between (x : Q) (zl zu : Z) :
  inject_Z zl <= x -> x <= inject_Z zu ->
  (zl <= Np.round x <= zu)%Z.
Proof.
  intros Hlo Hhi.
  pose proof (Qfloor_le x) as Hfl.
  assert (H1 : (zl <= Qfloor x)%Z).
  { rewrite <- (Qfloor_Z zl). apply Qfloor_resp_le. exact Hlo. }
  assert (H2 : (Qfloor x <= zu)%Z).
  { rewrite Zle_Qle. apply Qle_trans with x; assumption. }
  unfold Np.round.
  destruct (Qcompare (x - inject_Z (Qfloor x)) (1 # 2)) eqn:E.
  - apply Qeq_alt in E. destruct (Z.even (Qfloor x)); [lia|].
    assert (H3 : (Qfloor x < zu)%Z).
    { rewrite Zlt_Qlt. apply Qlt_le_trans with x; [lra | exact Hhi]. }
    lia.
  - lia.
  - apply Qgt_alt in E.
    assert (H3 : (Qfloor x < zu)%Z).
    { rewrite Zlt_Qlt. apply Qlt_le_trans with x; [lra | exact Hhi]. }
    lia.
Qed.

(** On aligned shapes a move that stays inside the bounds of a dimension
    is taken as it is, and a move that leaves them stops at the bound it
    crossed. *)
Theorem update_position_saturates (np_empty : nat -> Q) (self : Particle)
    (lower_bound upper_bound : list scalar) (i : nat) (lb ub : scalar)
    (p v : Q) :
  length lower_bound = length (position self) ->
  length upper_bound = length (position self) ->
  length (velocity self) = length (position self) ->
  nth_error lower_bound i = Some lb -> nth_error upper_bound i = Some ub ->
  nth_error (position self) i = Some p ->
  nth_error (velocity self) i = Some v ->
  as_float lb <= as_float ub ->
  exists self' x,
    update_position np_empty self lower_bound upper_bound = Return self' /\
    nth_error (position self') i = Some x /\
    (as_float lb <= moved lb p v -> moved lb p v <= as_float ub ->
       x == moved lb p v) /\
    (moved lb p v < as_float lb -> x = as_float lb) /\
    (as_float ub < moved lb p v -> x = as_float ub).
Proof.
  intros Hl Hu Hv Hlb Hub Hp Hvel Hb.
  destruct (update_position_aligned np_empty self lower_bound upper_bound Hl Hu Hv)
    as (new & Hrun & Hlen & Hcell).
  exists (with_position self new), (Np.clip1 (moved lb p v) (as_float lb) (as_float ub)).
  split; [exact Hrun|]. split; [exact (Hcell i lb ub p v Hlb Hub Hp Hvel)|].
  split; [|split].
  - apply clip1_inside.
  - intro H. apply clip1_below; assumption.
  - intro H. apply clip1_above; assumption.
Qed.

Lemma update_position_saturates_witness :
  exists self' x,
    update_position (fun _ => 0) sample_particle sample_lower_bound
      sample_upper_bound = Return self' /\
    nth_error (position self') 1 = Some x /\
    (as_float (PyInt 0) <= moved (PyInt 0) 3 5 ->
     moved (PyInt 0) 3 5 <= as_float (PyInt 5) -> x == moved (PyInt 0) 3 5) /\
    (moved (PyInt 0) 3 5 < as_float (PyInt 0) -> x = as_float (PyInt 0)) /\
    (as_float (PyInt 5) < moved (PyInt 0) 3 5 -> x = as_float (PyInt 5)).
Proof.
  apply (update_position_saturates (fun _ => 0) sample_particle
           sample_lower_bound sample_upper_bound 1 (PyInt 0) (PyInt 5) 3 5);
    try reflexivity.
  unfold Qle. simpl. lia.
Defined.

(** On aligned shapes, in a dimension whose two bounds are [int] or [bool],
    a move that stays inside the bounds lands on the rounded sum: rounding
    never carries it outside, so clipping leaves it alone. *)
Theorem update_position_integer_move (np_empty : nat -> Q) (self : Particle)
    (lower_bound upper_bound : list scalar) (i : nat) (lb ub : scalar)
    (p v : Q) :
  length lower_bound = length (position self) ->
  length upper_bound = length (position self) ->
  length (velocity self) = length (position self) ->
  nth_error lower_bound i = Some lb -> nth_error upper_bound i = Some ub ->
  nth_error (position self) i = Some p ->
  nth_error (velocity self) i = Some v ->
  is_int_or_bool lb = true -> is_int_or_bool ub = true ->
  as_float lb <= p + v -> p + v <= as_float ub ->
  exists self',
    update_position np_empty self lower_bound upper_bound = Return self' /\
    nth_error (position self') i = Some (inject_Z (Np.round (p + v))).
Proof.
  intros Hl Hu Hv Hlb Hub Hp Hvel Hkl Hku Hlo Hhi.
  destruct (update_position_aligned np_empty self lower_bound upper_bound Hl Hu Hv)
    as (new & Hrun & Hlen & Hcell).
  exists (with_position self new). split; [exact Hrun|]. simpl.
  rewrite (Hcell i lb ub p v Hlb Hub Hp Hvel). unfold moved. rewrite Hkl.
  destruct (as_float_integral lb Hkl) as [zl Hzl].
  destruct (as_float_integral ub Hku) as [zu Hzu].
  rewrite Hzl, Hzu in *.
  destruct (round_between (p + v) zl zu Hlo Hhi) as [Hrl Hru].
  f_equal.
  assert (Heq : Np.clip1 (inject_Z (Np.round (p + v))) (inject_Z zl) (inject_Z zu)
                == inject_Z (Np.round (p + v))).
  { apply clip1_inside.
    - rewrite <- (Zle_Qle zl (Np.round (p + v))). exact Hrl.
    - rewrite <- (Zle_Qle (Np.round (p + v)) zu). exact Hru. }
  destruct (clip1_cases (inject_Z (Np.round (p + v))) (inject_Z zl) (inject_Z zu))
    as [E|[E|E]]; rewrite E in *.
  - reflexivity.
  - apply (proj1 (inject_Z_injective _ _)) in Heq. rewrite Heq. reflexivity.
  - apply (proj1 (inject_Z_injective _ _)) in Heq. rewrite Heq. reflexivity.
Qed.

Lemma update_position_integer_move_witness :
  exists self',
    update_position (fun _ => 0) (with_velocity sample_particle [1; 3 # 2])
      sample_lower_bound sample_upper_bound = Return self' /\
    nth_error (position self') 1 = Some (inject_Z (Np.round (3 + (3 # 2)))).
Proof.
  apply (update_position_integer_move (fun _ => 0)
           (with_velocity sample_particle [1; 3 # 2])
           sample_lower_bound sample_upper_bound 1 (PyInt 0) (PyInt 5));
    try reflexivity; unfold Qle; simpl; lia.
Defined.

Lemma broadcast_shape_one (n : nat) : Np.broadcast_shape n 1 = Some n.
Proof.
  unfold Np.broadcast_shape.
  destruct (Nat.eqb_spec n 1) as [->|_]; reflexivity.
Qed.

Lemma empty_like_nth (np_empty : nat -> Q) (a : list Q) (i : nat) :
  (i < length a)%nat ->
  nth_error (empty_like np_empty a) i = Some (np_empty i).
Proof.
  intro Hi. unfold empty_like. rewrite nth_error_map.
  rewrite (nth_error_nth' _ 0%nat) by (rewrite length_seq; exact Hi).
  rewrite seq_nth by exact Hi. reflexivity.
Qed.

Lemma clip_single_bound (cells : list Q) (lo hi : Q) :
  length cells <> 1%nat ->
  Np.clip cells [lo] [hi] =
    Return (map (fun c => Np.clip1 (fst c) (fst (snd c)) (snd (snd c)))
              (combine cells
                 (combine (repeat lo (length cells)) (repeat hi (length cells))))).
Proof.
  intro Hn. unfold Np.clip. change (length [lo]) with 1%nat.
  change (length [hi]) with 1%nat.
  rewrite !broadcast_shape_one, broadcast_to_same.
  assert (Hrep : forall x : Q, Np.broadcast_to (length cells) [x] = repeat x (length cells)).
  { intro x. unfold Np.broadcast_to. change (length [x]) with 1%nat.
    destruct (Nat.eqb_spec 1 (length cells)) as [E|_]; [congruence | reflexivity]. }
  rewrite !Hrep. reflexivity.
Qed.

(** With one lower and one upper bound for a position of two or more
    coordinates the call returns: the first coordinate is moved and
    clipped, and every other coordinate becomes the content of the
    [np.empty_like] cell, clipped to that one pair of bounds.  The old
    coordinate and its velocity are not read. *)
Theorem update_position_single_bound (np_empty : nat -> Q) (self : Particle)
    (lb ub : scalar) :
  (2 <= length (position self))%nat ->
  (1 <= length (velocity self))%nat ->
  exists new_position,
    update_position np_empty self [lb] [ub] =
      Return (with_position self new_position) /\
    length new_position = length (position self) /\
    (forall p v,
       nth_error (position self) 0 = Some p ->
       nth_error (velocity self) 0 = Some v ->
       nth_error new_position 0 =
         Some (Np.clip1 (moved lb p v) (as_float lb) (as_float ub))) /\
    (forall i, (1 <= i < length (position self))%nat ->
       nth_error new_position i =
         Some (Np.clip1 (np_empty i) (as_float lb) (as_float ub))).
Proof.
  intros Hn Hv. unfold update_position.
  assert (Hempty : length (empty_like np_empty (position self)) =
                   length (position self)).
  { unfold empty_like. rewrite length_map, length_seq. reflexivity. }
  destruct (fill_position_range self [lb] 1 0 (empty_like np_empty (position self)))
    as (cells & Hrun & Hlen & Hset & Hkeep);
    try (rewrite ?Hempty; simpl; lia).
  rewrite Hempty in Hlen.
  change (seq 0 (length [lb])) with (seq 0 1).
  rewrite Hrun. unfold obind at 1.
  change (map as_float [lb]) with [as_float lb].
  change (map as_float [ub]) with [as_float ub].
  rewrite clip_single_bound by lia. unfold obind.
  eexists. split; [reflexivity|]. split; [|split].
  - rewrite zip3_length; rewrite ?length_combine, ?repeat_length; lia.
  - intros p v Hp Hvel.
    apply (nth_error_zip3
             (fun c => Np.clip1 (fst c) (fst (snd c)) (snd (snd c)))
             cells _ _ 0%nat (moved lb p v) (as_float lb) (as_float ub)).
    + apply (Hset 0%nat lb p v); [lia | reflexivity | exact Hp | exact Hvel].
    + apply nth_error_repeat. lia.
    + apply nth_error_repeat. lia.
  - intros i Hi.
    apply (nth_error_zip3
             (fun c => Np.clip1 (fst c) (fst (snd c)) (snd (snd c)))
             cells _ _ i (np_empty i) (as_float lb) (as_float ub)).
    + rewrite Hkeep by lia. apply empty_like_nth. lia.
    + apply nth_error_repeat. lia.
    + apply nth_error_repeat. lia.
Qed.

Lemma update_position_single_bound_witness :
  update_position (fun _ => 9) sample_particle [PyFloat 0] [PyFloat 1] =
    Return (with_position sample_particle [1; 1]) /\
  update_position (fun _ => 1 # 3) sample_particle [PyFloat 0] [PyFloat 1] =
    Return (with_position sample_particle [1; 1 # 3]).
Proof.
  destruct (update_position_single_bound (fun _ => 9) sample_particle
              (PyFloat 0) (PyFloat 1)) as (new & Hrun & _); simpl; try lia.
  destruct (update_position_single_bound (fun _ => 1 # 3) sample_particle
              (PyFloat 0) (PyFloat 1)) as (new' & Hrun' & _); simpl; try lia.
  split; reflexivity.
Defined.

(** * Further properties of the topologies *)

(** ** Running the random source *)

Lemma bind_inv {A B : Type} (c : Randomizer.M A) (k : A -> Randomizer.M B)
    (s : Randomizer.rng) (r : B * Randomizer.rng) :
  Randomizer.bind c k s = Return r ->
  exists a s1, c s = Return (a, s1) /\ k a s1 = Return r.
Proof.
  unfold Randomizer.bind. destruct (c s) as [[a s1]| |]; try discriminate.
  intro H. exists a, s1. split; [reflexivity | exact H].
Qed.

Lemma lift_inv {A : Type} (c : outcome A) (s s' : Randomizer.rng) (x : A) :
  Randomizer.lift c s = Return (x, s') -> c = Return x /\ s' = s.
Proof.
  unfold Randomizer.lift. destruct c; try discriminate.
  intro H. injection H as -> ->. split; reflexivity.
Qed.

Lemma getitem_In {A : Type} (a : list A) (i : nat) (x : A) :
  Np.getitem a i = Return x -> In x a.
Proof.
  unfold Np.getitem. destruct (nth_error a i) eqn:E; try discriminate.
  intro H. injection H as <-. apply nth_error_In with i. exact E.
Qed.

Lemma take_In {A : Type} (a : list A) (idx : list nat) (xs : list A) (x : A) :
  Np.take a idx = Return xs -> In x xs -> In x a.
Proof.
  revert xs. induction idx as [|i idx IH]; simpl; intros xs H Hx.
  - injection H as <-. destruct Hx.
  - destruct (Np.getitem a i) as [y| |] eqn:Ey; simpl in H; try discriminate.
    destruct (Np.take a idx) as [ys| |] eqn:Eys; simpl in H; try discriminate.
    injection H as <-. destruct Hx as [<-|Hx].
    + apply getitem_In with i. exact Ey.
    + apply (IH ys); [reflexivity | exact Hx].
Qed.

Lemma choice_In {A : Type} (a : list A) (s s' : Randomizer.rng) (x : A) :
  Randomizer.choice a s = Return (x, s') -> In x a.
Proof.
  unfold Randomizer.choice. destruct a as [|y a]; [discriminate|].
  intro H. apply bind_inv in H. destruct H as (i & s1 & _ & H).
  apply lift_inv in H. destruct H as [H _]. apply getitem_In with i. exact H.
Qed.

Lemma choice_p_In {A : Type} (a : list A) (p : list Q)
    (s s' : Randomizer.rng) (x : A) :
  Randomizer.choice_p a p s = Return (x, s') -> In x a.
Proof.
  unfold Randomizer.choice_p. destruct a as [|y a]; [discriminate|].
  destruct (negb _); [discriminate|].
  destruct (negb _); [discriminate|].
  destruct (negb _); [discriminate|].
  intro H. apply bind_inv in H. destruct H as (u & s1 & _ & H).
  apply lift_inv in H. destruct H as [H _].
  apply getitem_In with (Randomizer.searchsorted 0 p u). exact H.
Qed.

Lemma crowding_distance_topology_In (pareto_front : list Particle)
    (crowding_distances : list Q) (higher : bool) (leader : Particle) :
  crowding_distance_topology pareto_front crowding_distances higher = Return leader ->
  In leader pareto_front.
Proof.
  unfold crowding_distance_topology.
  destruct (Np.take pareto_front _) as [xs| |] eqn:E; simpl; try discriminate.
  intro H. apply (take_In pareto_front _ xs leader E).
  apply getitem_In with 0%nat. exact H.
Qed.

Lemma ring_leader_In (pareto_front : list Particle)
    (crowding_distances : list Q) (higher : bool) (indexes : nat * nat)
    (leader : Particle) :
  ring_leader pareto_front crowding_distances higher indexes = Return leader ->
  In leader pareto_front.
Proof.
  unfold ring_leader.
  destruct (Np.take crowding_distances _) as [picked| |]; simpl; try discriminate.
  destruct (Np.take _ _) as [xs| |] eqn:E; simpl; try discriminate.
  intro H. apply getitem_In in H.
  apply (take_In _ _ xs leader E) in H.
  apply in_map_iff in H. destruct H as ([i x] & <- & H).
  apply filter_In in H. destruct H as [H _].
  apply in_combine_r in H. exact H.
Qed.

Lemma leader_In (np_exp : Q -> Q) (self : Particle)
    (pareto_front : list Particle) (crowding_distances : list Q)
    (s s' : Randomizer.rng) (leader : Particle) :
  get_pareto_leader np_exp self pareto_front crowding_distances s =
    Return (leader, s') ->
  In leader pareto_front.
Proof.
  unfold get_pareto_leader, weighted_crowding_distance_topology,
    random_ring_topology, round_robin_topology.
  repeat match goal with
  | |- context [String.eqb (topology self) ?name] =>
      destruct (String.eqb (topology self) name)
  end; intro H.
  - apply choice_In in H. exact H.
  - apply lift_inv in H. destruct H as [H _].
    apply crowding_distance_topology_In in H. exact H.
  - apply lift_inv in H. destruct H as [H _].
    apply crowding_distance_topology_In in H. exact H.
  - apply bind_inv in H. destruct H as (pdf & s1 & _ & H).
    apply choice_p_In in H. exact H.
  - apply bind_inv in H. destruct H as (pdf & s1 & _ & H).
    apply choice_p_In in H. exact H.
  - apply lift_inv in H. destruct H as [H _].
    destruct pareto_front as [|x front]; [discriminate|].
    apply getitem_In in H. exact H.
  - destruct (Nat.ltb _ 2).
    + apply lift_inv in H. destruct H as [H _]. apply getitem_In in H. exact H.
    + apply bind_inv in H. destruct H as (indexes & s1 & _ & H).
      apply lift_inv in H. destruct H as [H _].
      apply ring_leader_In in H. exact H.
  - destruct (Nat.ltb _ 2).
    + apply lift_inv in H. destruct H as [H _]. apply getitem_In in H. exact H.
    + apply bind_inv in H. destruct H as (indexes & s1 & _ & H).
      apply lift_inv in H. destruct H as [H _].
      apply ring_leader_In in H. exact H.
  - discriminate H.
Qed.

(** Whatever the topology, the distances and the draws, a leader that
    [get_pareto_leader] returns is a member of the front it was given. *)
Theorem get_pareto_leader_in_front (np_exp : Q -> Q) (self : Particle)
    (pareto_front : list Particle) (crowding_distances : list Q)
    (s s' : Randomizer.rng) (leader : Particle) :
  get_pareto_leader np_exp self pareto_front crowding_distances s =
    Return (leader, s') ->
  In leader pareto_front.
Proof.
  intro H. exact (leader_In np_exp self pareto_front crowding_distances s s' leader H).
Qed.

Lemma get_pareto_leader_in_front_witness :
  get_pareto_leader sample_exp
    (sample_with_topology "lower_crowding_distance_random_ring")
    [sample_member 0; sample_member 1; sample_member 2] [4; 1; 3]
    [1 # 2; 3 # 4; 1 # 9] =
    Return (sample_member 1, [1 # 9]) /\
  In (sample_member 1) [sample_member 0; sample_member 1; sample_member 2].
Proof.
  assert (H : get_pareto_leader sample_exp
                (sample_with_topology "lower_crowding_distance_random_ring")
                [sample_member 0; sample_member 1; sample_member 2] [4; 1; 3]
                [1 # 2; 3 # 4; 1 # 9] =
              Return (sample_member 1, [1 # 9])) by reflexivity.
  split; [exact H|].
  exact (get_pareto_leader_in_front _ _ _ _ _ _ _ H).
Defined.

(** ** Round robin *)

(** On an empty front [round_robin_topology] raises [ZeroDivisionError].
    On any other front it returns, for every [id], negative ones included,
    the member at index [id mod len(pareto_front)]; the leader is the same
    for ids that differ by a multiple of the front size, and
    [get_pareto_leader] takes no draw for it. *)
Theorem round_robin_leader (np_exp : Q -> Q) (self : Particle)
    (pareto_front : list Particle) :
  topology self = "round_robin" ->
  round_robin_topology [] (id self) = Raise ZeroDivisionError /\
  (pareto_front <> [] ->
   exists leader,
     round_robin_topology pareto_front (id self) = Return leader /\
     nth_error pareto_front
       (Z.to_nat (id self mod Z.of_nat (length pareto_front))) = Some leader /\
     (forall k : Z,
        round_robin_topology pareto_front
          (id self + k * Z.of_nat (length pareto_front)) = Return leader) /\
     (forall crowding_distances s,
        get_pareto_leader np_exp self pareto_front crowding_distances s =
          Return (leader, s))).
Proof.
  intro Ht. split; [reflexivity|]. intro Hne.
  destruct pareto_front as [|x front]; [congruence|].
  set (pf := x :: front) in *.
  assert (Hpos : (0 < Z.of_nat (length pf))%Z) by (simpl; lia).
  pose proof (Z.mod_pos_bound (id self) _ Hpos) as Hrange.
  destruct (nth_error pf (Z.to_nat (id self mod Z.of_nat (length pf))))
    as [leader|] eqn:E; [|apply nth_error_None in E; lia].
  assert (Hrun : round_robin_topology pf (id self) = Return leader).
  { unfold round_robin_topology, pf, Np.getitem. fold pf. rewrite E. reflexivity. }
  exists leader. split; [exact Hrun|]. split; [reflexivity|]. split.
  - intro k. unfold round_robin_topology, pf, Np.getitem. fold pf.
    rewrite Z.mod_add by lia. rewrite E. reflexivity.
  - intros cd s. unfold get_pareto_leader. rewrite Ht. simpl String.eqb.
    cbv iota. rewrite Hrun. reflexivity.
Qed.

Lemma round_robin_leader_witness :
  round_robin_topology [sample_member 0; sample_member 1; sample_member 2]
    (id sample_particle) = Return (sample_member 1) /\
  round_robin_topology [sample_member 0; sample_member 1; sample_member 2]
    (id sample_particle + (-4) * 3) = Return (sample_member 1).
Proof.
  destruct (round_robin_leader sample_exp sample_particle
              [sample_member 0; sample_member 1; sample_member 2])
    as [_ H]; [reflexivity|].
  destruct H as (leader & Hrun & _ & Hper & _); [discriminate|].
  split; [reflexivity|].
  transitivity (Return leader); [exact (Hper (-4)%Z)|].
  rewrite <- Hrun. reflexivity.
Defined.

(** ** Uniform choice *)



(** ** Crowding distance, continued *)

Lemma argsort_complete (cd : list Q) (i : nat) :
  (i < length cd)%nat -> In i (Np.argsort cd).
Proof.
  intro Hi. destruct (nth_error cd i) as [x|] eqn:E;
    [|apply nth_error_None in E; lia].
  unfold Np.argsort. apply in_map_iff. exists (i, x). split; [reflexivity|].
  apply sort_keys_In. apply enumerate_In. exact E.
Qed.

Lemma take_out_of_range {A : Type} (a : list A) (idx : list nat) (i : nat) :
  In i idx -> (length a <= i)%nat -> Np.take a idx = Raise IndexError.
Proof.
  intros Hin Hi. induction idx as [|j idx IH]; [destruct Hin|].
  simpl. unfold Np.getitem at 1.
  destruct (nth_error a j) as [x|] eqn:E; [|reflexivity].
  simpl. destruct Hin as [->|Hin].
  - apply nth_error_None in Hi. congruence.
  - rewrite (IH Hin). reflexivity.
Qed.

(** With more crowding distances than front members, or with none at all,
    [crowding_distance_topology] raises [IndexError], for either value of
    [higher]. *)
Theorem crowding_distance_topology_index_error (pareto_front : list Particle)
    (crowding_distances : list Q) (higher : bool) :
  (length pareto_front < length crowding_distances)%nat \/
  crowding_distances = [] ->
  crowding_distance_topology pareto_front crowding_distances higher =
    Raise IndexError.
Proof.
  intros [Hlen | ->].
  - unfold crowding_distance_topology.
    set (cd := if higher then rev crowding_distances else crowding_distances).
    assert (Hcd : length cd = length crowding_distances).
    { unfold cd. destruct higher; [apply length_rev | reflexivity]. }
    replace (if higher then Np.argsort (rev crowding_distances)
             else Np.argsort crowding_distances) with (Np.argsort cd)
      by (unfold cd; destruct higher; reflexivity).
    rewrite (take_out_of_range pareto_front (Np.argsort cd)
               (length crowding_distances - 1)).
    + reflexivity.
    + apply argsort_complete. lia.
    + lia.
  - destruct higher; reflexivity.
Qed.

Lemma crowding_distance_topology_index_error_witness :
  crowding_distance_topology [sample_member 0; sample_member 1] [4; 1; 3] false =
    Raise IndexError /\
  crowding_distance_topology [sample_member 0; sample_member 1] [] true =
    Raise IndexError.
Proof.
  split.
  - apply (crowding_distance_topology_index_error
             [sample_member 0; sample_member 1] [4; 1; 3] false).
    left. simpl. lia.
  - apply (crowding_distance_topology_index_error
             [sample_member 0; sample_member 1] [] true).
    right. reflexivity.
Defined.

(** With [higher = False] and at least one crowding distance, no more of
    them than front members, [crowding_distance_topology] returns the
    member at the index of a least distance; members beyond the last
    distance are never returned. *)
Theorem crowding_distance_lower_prefix (pareto_front : list Particle)
    (crowding_distances : list Q) :
  (0 < length crowding_distances <= length pareto_front)%nat ->
  exists i leader d,
    crowding_distance_topology pareto_front crowding_distances false =
      Return leader /\
    (i < length crowding_distances)%nat /\
    nth_error pareto_front i = Some leader /\
    nth_error crowding_distances i = Some d /\
    forall x, In x crowding_distances -> d <= x.
Proof.
  intros [Hpos Hle].
  destruct (argsort_head crowding_distances)
    as (i & d & rest & Hs & Hd & Hleast & Hrange).
  { intro E. rewrite E in Hpos. simpl in Hpos. lia. }
  assert (Hrange' : Forall (fun j => (j < length pareto_front)%nat) (i :: rest)).
  { eapply Forall_impl; [|exact Hrange]. simpl. intros j Hj. lia. }
  unfold crowding_distance_topology. rewrite Hs.
  destruct (take_in_range pareto_front (i :: rest) Hrange') as (xs & Hxs & Hhd).
  rewrite Hxs. simpl. unfold Np.getitem. rewrite Hhd.
  assert (Hi : (i < length crowding_distances)%nat).
  { apply nth_error_Some. congruence. }
  destruct (nth_error pareto_front i) as [leader|] eqn:E;
    [|apply nth_error_None in E; lia].
  exists i, leader, d. auto.
Qed.

Lemma crowding_distance_lower_prefix_witness :
  exists i leader d,
    crowding_distance_topology
      [sample_member 0; sample_member 1; sample_member 2] [4; 1] false =
      Return leader /\
    (i < length [4; 1])%nat /\
    nth_error [sample_member 0; sample_member 1; sample_member 2] i =
      Some leader /\
    nth_error [4; 1] i = Some d /\
    forall x, In x [4; 1] -> d <= x.
Proof.
  apply (crowding_distance_lower_prefix
           [sample_member 0; sample_member 1; sample_member 2] [4; 1]).
  simpl. lia.
Defined.

Lemma crowding_distance_higher_mirror_witness :
  exists i leader d,
    crowding_distance_topology
      [sample_member 0; sample_member 1; sample_member 2] [4; 1; 3] true =
      Return leader /\
    nth_error [sample_member 0; sample_member 1; sample_member 2] i =
      Some leader /\
    nth_error [4; 1; 3] (length [4; 1; 3] - S i) = Some d /\
    forall x, In x [4; 1; 3] -> d <= x.
Proof.
  apply (crowding_distance_higher_mirror
           [sample_member 0; sample_member 1; sample_member 2] [4; 1; 3]).
  - reflexivity.
  - discriminate.
Defined.

(** ** The random ring, continued *)

(** Whatever the order of the draw, the leader is one of the two sampled
    members. *)
Lemma ring_leader_sampled (pareto_front : list Particle)
    (crowding_distances : list Q) (higher : bool) (i0 i1 a b : nat)
    (pa pb : Particle) (da db : Q) :
  (a < b)%nat ->
  (i0 = a /\ i1 = b) \/ (i0 = b /\ i1 = a) ->
  nth_error pareto_front a = Some pa -> nth_error pareto_front b = Some pb ->
  nth_error crowding_distances a = Some da ->
  nth_error crowding_distances b = Some db ->
  exists leader,
    ring_leader pareto_front crowding_distances higher (i0, i1) = Return leader /\
    (leader = pa \/ leader = pb).
Proof.
  intros Hab Hi Ha Hb Hda Hdb. unfold ring_leader.
  rewrite (ring_particles pareto_front i0 i1 a b pa pb) by auto.
  simpl. unfold Np.getitem.
  destruct Hi as [[-> ->]|[-> ->]]; rewrite Hda, Hdb; simpl;
    destruct higher; simpl rev; rewrite argsort_pair;
    match goal with |- context [Qle_bool ?x ?y] => destruct (Qle_bool x y) end;
    simpl; eexists; split; try reflexivity; auto.
Qed.

(** On a front of two or more members with as many crowding distances,
    once the loop has left with its two indices, [random_ring_topology]
    returns: the two indices differ and the leader is the front member at
    one of them. *)
Theorem random_ring_returns_sampled_member (pareto_front : list Particle)
    (crowding_distances : list Q) (higher : bool)
    (s s' : Randomizer.rng) (i0 i1 : nat) :
  (2 <= length pareto_front)%nat ->
  length crowding_distances = length pareto_front ->
  draw_distinct (length pareto_front) s = Return ((i0, i1), s') ->
  exists leader,
    random_ring_topology pareto_front crowding_distances higher s =
      Return (leader, s') /\
    i0 <> i1 /\
    (nth_error pareto_front i0 = Some leader \/
     nth_error pareto_front i1 = Some leader).
Proof.
  intros Hn Hlen Hdraw.
  assert (Hpos : (0 < length pareto_front)%nat) by lia.
  destruct (draw_distinct_spec _ _ _ _ _ Hpos Hdraw) as (Hne & H0 & H1).
  destruct (nth_error pareto_front i0) as [p0|] eqn:Ep0;
    [|apply nth_error_None in Ep0; lia].
  destruct (nth_error pareto_front i1) as [p1|] eqn:Ep1;
    [|apply nth_error_None in Ep1; lia].
  destruct (nth_error crowding_distances i0) as [d0|] eqn:Ed0;
    [|apply nth_error_None in Ed0; lia].
  destruct (nth_error crowding_distances i1) as [d1|] eqn:Ed1;
    [|apply nth_error_None in Ed1; lia].
  assert (Hrun : random_ring_topology pareto_front crowding_distances higher s =
                 Randomizer.lift
                   (ring_leader pareto_front crowding_distances higher (i0, i1)) s').
  { unfold random_ring_topology.
    rewrite (proj2 (Nat.ltb_ge _ _) Hn).
    unfold Randomizer.bind. rewrite Hdraw. reflexivity. }
  rewrite Hrun.
  destruct (Nat.lt_ge_cases i0 i1) as [Hlt|Hge].
  - destruct (ring_leader_sampled pareto_front crowding_distances higher
                i0 i1 i0 i1 p0 p1 d0 d1) as (leader & Hl & Hwho); auto.
    exists leader. rewrite Hl. split; [reflexivity|]. split; [exact Hne|].
    destruct Hwho as [->| ->]; auto.
  - destruct (ring_leader_sampled pareto_front crowding_distances higher
                i0 i1 i1 i0 p1 p0 d1 d0) as (leader & Hl & Hwho); auto; try lia.
    exists leader. rewrite Hl. split; [reflexivity|]. split; [exact Hne|].
    destruct Hwho as [->| ->]; auto.
Qed.

Lemma random_ring_returns_sampled_member_witness :
  exists leader,
    random_ring_topology [sample_member 0; sample_member 1; sample_member 2]
      [4; 1; 3] true [1 # 9; 1 # 9; 3 # 4; 1 # 2] = Return (leader, []) /\
    2%nat <> 1%nat /\
    (nth_error [sample_member 0; sample_member 1; sample_member 2] 2 =
       Some leader \/
     nth_error [sample_member 0; sample_member 1; sample_member 2] 1 =
       Some leader).
Proof.
  apply (random_ring_returns_sampled_member
           [sample_member 0; sample_member 1; sample_member 2] [4; 1; 3] true
           [1 # 9; 1 # 9; 3 # 4; 1 # 2] [] 2 1).
  - simpl. lia.
  - reflexivity.
  - reflexivity.
Defined.

(** A draw in ascending order serves the topology: the leader is the one
    of the two sampled members whose crowding distance is not smaller
    ([higher]) or not greater (lower) than the other's. *)
Theorem ring_leader_ascending_extreme (pareto_front : list Particle)
    (crowding_distances : list Q) (higher : bool) (a b : nat)
    (pa pb : Particle) (da db : Q) :
  (a < b)%nat ->
  nth_error pareto_front a = Some pa -> nth_error pareto_front b = Some pb ->
  nth_error crowding_distances a = Some da ->
  nth_error crowding_distances b = Some db ->
  exists leader d,
    ring_leader pareto_front crowding_distances higher (a, b) = Return leader /\
    ((leader = pa /\ d = da) \/ (leader = pb /\ d = db)) /\
    (if higher then da <= d /\ db <= d else d <= da /\ d <= db).
Proof.
  intros Hab Ha Hb Hda Hdb.
  rewrite (ring_leader_ascending _ _ _ a b pa pb da db) by assumption.
  destruct higher.
  - destruct (Qle_bool db da) eqn:E.
    + apply Qle_bool_iff in E. exists pa, da. split; [reflexivity|].
      split; [auto|]. split; [apply Qle_refl | exact E].
    + apply Qle_bool_false in E. exists pb, db. split; [reflexivity|].
      split; [auto|]. split; [apply Qlt_le_weak; exact E | apply Qle_refl].
  - destruct (Qle_bool da db) eqn:E.
    + apply Qle_bool_iff in E. exists pa, da. split; [reflexivity|].
      split; [auto|]. split; [apply Qle_refl | exact E].
    + apply Qle_bool_false in E. exists pb, db. split; [reflexivity|].
      split; [auto|]. split; [apply Qlt_le_weak; exact E | apply Qle_refl].
Qed.

Lemma ring_leader_ascending_extreme_witness :
  exists leader d,
    ring_leader [sample_member 0; sample_member 1; sample_member 2] [4; 1; 3]
      true (1%nat, 2%nat) = Return leader /\
    ((leader = sample_member 1 /\ d = 1) \/ (leader = sample_member 2 /\ d = 3)) /\
    (1 <= d /\ 3 <= d).
Proof.
  apply (ring_leader_ascending_extreme
           [sample_member 0; sample_member 1; sample_member 2] [4; 1; 3] true
           1 2 (sample_member 1) (sample_member 2) 1 3);
    try reflexivity. lia.
Defined.

Lemma ring_leader_descending_witness :
  ring_leader [sample_member 0; sample_member 1; sample_member 2] [4; 1; 3]
    true (2%nat, 1%nat) =
  ring_leader [sample_member 0; sample_member 1; sample_member 2] [4; 1; 3]
    false (1%nat, 2%nat).
Proof.
  apply (ring_leader_descending
           [sample_member 0; sample_member 1; sample_member 2] [4; 1; 3] true
           1 2 (sample_member 1) (sample_member 2) 1 3);
    try reflexivity. lia.
Defined.

(** ** Boltzmann weights *)

Lemma Qsum_pos (l : list Q) :
  l <> [] -> (forall x, In x l -> 0 < x) -> 0 < Randomizer.Qsum l.
Proof.
  intros Hne Hpos. destruct l as [|x l]; [congruence|]. clear Hne.
  revert x Hpos. induction l as [|y l IH]; intros x Hpos; simpl.
  - pose proof (Hpos x (or_introl eq_refl)). lra.
  - pose proof (Hpos x (or_introl eq_refl)) as Hx.
    assert (Hrest : 0 < Randomizer.Qsum (y :: l)).
    { apply IH. intros z Hz. apply Hpos. right. exact Hz. }
    simpl in Hrest. lra.
Qed.

Lemma Qsum_div (l : list Q) (t : Q) :
  Randomizer.Qsum (map (fun x => x / t) l) == Randomizer.Qsum l / t.
Proof.
  induction l as [|x l IH]; simpl.
  - unfold Qdiv. ring.
  - rewrite IH. unfold Qdiv. ring.
Qed.

Lemma boltzmann_large (np_exp : Q -> Q) (crowding_distances : list Q)
    (higher : bool) (s : Randomizer.rng) :
  (3 <= length crowding_distances)%nat ->
  boltzmann np_exp crowding_distances higher s =
    Return (normalised (weights np_exp crowding_distances higher), s).
Proof.
  intro Hn. unfold boltzmann.
  destruct (Nat.eqb_spec (length crowding_distances) 1) as [E|_]; [lia|].
  destruct (Nat.eqb_spec (length crowding_distances) 2) as [E|_]; [lia|].
  reflexivity.
Qed.

Lemma weights_length (np_exp : Q -> Q) (cd : list Q) (higher : bool) :
  length (normalised (weights np_exp cd higher)) = length cd.
Proof.
  unfold normalised, weights, exponents.
  destruct higher; rewrite ?length_map; reflexivity.
Qed.

Lemma weights_nonneg (np_exp : Q -> Q) (cd : list Q) (higher : bool) :
  (forall x, 0 <= np_exp x) ->
  forall w, In w (weights np_exp cd higher) -> 0 <= w.
Proof.
  intros Hexp w Hw. unfold weights in Hw. apply in_map_iff in Hw.
  destruct Hw as (x & <- & _). apply Hexp.
Qed.

Lemma normalised_distribution (w : list Q) :
  (forall x, In x w -> 0 <= x) -> 0 < Randomizer.Qsum w ->
  (forall x, In x (normalised w) -> 0 <= x) /\
  Randomizer.Qsum (normalised w) == 1.
Proof.
  intros Hpos Htotal. split.
  - intros x Hx. unfold normalised in Hx. apply in_map_iff in Hx.
    destruct Hx as (y & <- & Hy). unfold Qdiv.
    apply Qmult_le_0_compat; [apply Hpos; exact Hy|].
    apply Qlt_le_weak. apply Qinv_lt_0_compat. exact Htotal.
  - unfold normalised. rewrite Qsum_div. unfold Qdiv.
    apply Qmult_inv_r. intro E. rewrite E in Htotal.
    exact (Qlt_irrefl 0 Htotal).
Qed.

(** For three crowding distances or more, none of them negative, an
    [np.exp] that is never negative, and weights that have not all
    vanished ([np.sum(pdf)] is not 0 before the division), [boltzmann]
    takes no draw and returns a probability vector: one weight per
    distance, none negative, adding up to 1. *)
Theorem boltzmann_is_distribution (np_exp : Q -> Q)
    (crowding_distances : list Q) (higher : bool) (s : Randomizer.rng) :
  (forall x, 0 <= np_exp x) ->
  (forall d, In d crowding_distances -> 0 <= d) ->
  (3 <= length crowding_distances)%nat ->
  0 < Randomizer.Qsum (weights np_exp crowding_distances higher) ->
  exists pdf,
    boltzmann np_exp crowding_distances higher s = Return (pdf, s) /\
    length pdf = length crowding_distances /\
    (forall w, In w pdf -> 0 <= w) /\
    Randomizer.Qsum pdf == 1.
Proof.
  intros Hexp _ Hn Htotal. rewrite boltzmann_large by exact Hn.
  eexists. split; [reflexivity|]. split; [apply weights_length|].
  apply normalised_distribution.
  - apply weights_nonneg. exact Hexp.
  - exact Htotal.
Qed.

Lemma sample_exp_nonneg (x : Q) : 0 <= sample_exp x.
Proof.
  unfold sample_exp. destruct (Qle_bool x (- (4))) eqn:E4; [lra|].
  apply Qle_bool_false in E4.
  destruct (Qle_bool x 0) eqn:E0.
  - apply Qle_bool_iff in E0. lra.
  - apply Qle_bool_false in E0. lra.
Qed.

Lemma sample_exp_monotone (x y : Q) : x <= y -> sample_exp x <= sample_exp y.
Proof.
  intro H. unfold sample_exp.
  destruct (Qle_bool x (- (4))) eqn:Ex4; destruct (Qle_bool y (- (4))) eqn:Ey4;
    destruct (Qle_bool x 0) eqn:Ex0; destruct (Qle_bool y 0) eqn:Ey0;
    try apply Qle_bool_iff in Ex4; try apply Qle_bool_iff in Ey4;
    try apply Qle_bool_iff in Ex0; try apply Qle_bool_iff in Ey0;
    try apply Qle_bool_false in Ex4; try apply Qle_bool_false in Ey4;
    try apply Qle_bool_false in Ex0; try apply Qle_bool_false in Ey0; lra.
Qed.

Lemma sample_distances_nonneg (d : Q) : In d [4; 1; 3] -> 0 <= d.
Proof. intros [<-|[<-|[<-|[]]]]; unfold Qle; simpl; lia. Qed.

Lemma boltzmann_is_distribution_witness :
  exists pdf,
    boltzmann sample_exp [4; 1; 3] false [1 # 9] = Return (pdf, [1 # 9]) /\
    length pdf = length [4; 1; 3] /\
    (forall w, In w pdf -> 0 <= w) /\
    Randomizer.Qsum pdf == 1 /\
    sample_exp (- (4)) == 0 /\ sample_exp (- (1)) == 3 # 4.
Proof.
  destruct (boltzmann_is_distribution sample_exp [4; 1; 3] false [1 # 9])
    as (pdf & Hrun & Hlen & Hnn & Hsum).
  - exact sample_exp_nonneg.
  - exact sample_distances_nonneg.
  - simpl. lia.
  - vm_compute. reflexivity.
  - exists pdf. repeat split; try assumption; vm_compute; reflexivity.
Defined.

Lemma Qdiv_le_contravar (a b : Q) : 0 < a -> a <= b -> 1 / b <= 1 / a.
Proof.
  intros Ha Hab.
  assert (Hb : 0 < b) by (apply Qlt_le_trans with a; assumption).
  apply Qle_shift_div_l; [exact Ha|].
  setoid_replace (1 / b * a) with (a / b) by (unfold Qdiv; ring).
  apply Qle_shift_div_r; [exact Hb|]. lra.
Qed.

Lemma normalised_nth (w : list Q) (i : nat) (x : Q) :
  nth_error w i = Some x ->
  nth_error (normalised w) i = Some (x / Randomizer.Qsum w).
Proof.
  intro H. unfold normalised. rewrite nth_error_map, H. reflexivity.
Qed.

Lemma weights_nth (np_exp : Q -> Q) (cd : list Q) (higher : bool) (i : nat)
    (d : Q) :
  nth_error cd i = Some d ->
  nth_error (weights np_exp cd higher) i =
    Some (np_exp (- (if higher then 1 / (d + (1 # 1000000000)) else d))).
Proof.
  intro H. unfold weights, exponents.
  destruct higher; rewrite ?nth_error_map, H; reflexivity.
Qed.

(** For three non-negative crowding distances or more, an [np.exp] that
    is never negative and never decreasing, and weights that have not all
    vanished, the weights follow the topology: of two members the one
    with the larger distance gets no less weight under [higher] and no
    more weight under lower. *)
Theorem boltzmann_weights_follow_distance (np_exp : Q -> Q)
    (crowding_distances : list Q) (higher : bool) (s : Randomizer.rng)
    (i j : nat) (di dj : Q) :
  (forall x, 0 <= np_exp x) ->
  (forall x y, x <= y -> np_exp x <= np_exp y) ->
  (forall d, In d crowding_distances -> 0 <= d) ->
  (3 <= length crowding_distances)%nat ->
  0 < Randomizer.Qsum (weights np_exp crowding_distances higher) ->
  nth_error crowding_distances i = Some di ->
  nth_error crowding_distances j = Some dj ->
  di <= dj ->
  exists pdf wi wj,
    boltzmann np_exp crowding_distances higher s = Return (pdf, s) /\
    nth_error pdf i = Some wi /\ nth_error pdf j = Some wj /\
    (if higher then wi <= wj else wj <= wi).
Proof.
  intros Hpos Hmono Hnn Hn Htotal Hi Hj Hle.
  rewrite boltzmann_large by exact Hn.
  set (w := weights np_exp crowding_distances higher) in *.
  assert (Hdiv : forall x y, x <= y ->
            x / Randomizer.Qsum w <= y / Randomizer.Qsum w).
  { intros x y Hxy. unfold Qdiv. apply Qmult_le_compat_r; [exact Hxy|].
    apply Qlt_le_weak. apply Qinv_lt_0_compat. exact Htotal. }
  eexists. eexists. eexists. split; [reflexivity|].
  split; [apply normalised_nth; apply weights_nth; exact Hi|].
  split; [apply normalised_nth; apply weights_nth; exact Hj|].
  pose proof (Hnn di (nth_error_In _ _ Hi)) as Hdi.
  destruct higher; apply Hdiv; apply Hmono; apply Qopp_le_compat.
  - apply Qdiv_le_contravar; lra.
  - exact Hle.
Qed.

Lemma boltzmann_weights_follow_distance_witness :
  exists pdf wi wj,
    boltzmann sample_exp [4; 1; 3] true [1 # 9] = Return (pdf, [1 # 9]) /\
    nth_error pdf 1 = Some wi /\ nth_error pdf 0 = Some wj /\
    wi <= wj /\ ~ wi == wj.
Proof.
  destruct (boltzmann_weights_follow_distance sample_exp [4; 1; 3] true [1 # 9]
              1 0 1 4 sample_exp_nonneg sample_exp_monotone
              sample_distances_nonneg)
    as (pdf & wi & wj & Hrun & Hi & Hj & Hle).
  - simpl. lia.
  - vm_compute. reflexivity.
  - reflexivity.
  - reflexivity.
  - unfold Qle. simpl. lia.
  - exists pdf, wi, wj. split; [exact Hrun|]. split; [exact Hi|].
    split; [exact Hj|]. split; [exact Hle|].
    vm_compute in Hrun. injection Hrun as <-.
    vm_compute in Hi. injection Hi as <-.
    vm_compute in Hj. injection Hj as <-.
    unfold Qeq. vm_compute. discriminate.
Defined.

(** ** Weighted choice *)

Lemma searchsorted_in_range (p : list Q) (acc u : Q) :
  acc <= u -> u < acc + Randomizer.Qsum p ->
  (Randomizer.searchsorted acc p u < length p)%nat.
Proof.
  revert acc. induction p as [|x p IH]; intros acc Hlo Hhi; simpl in *.
  - exfalso. lra.
  - destruct (Qle_bool (acc + x) u) eqn:E.
    + apply Qle_bool_iff in E. apply -> Nat.succ_lt_mono.
      apply IH; [exact E | lra].
    + lia.
Qed.

(** [rng.choice(a, p = p)] accepts a probability vector as long as [a]
    and returns an entry of [a] for one variate. *)
Lemma choice_p_returns {A : Type} (a : list A) (p : list Q) (u : Q)
    (s : Randomizer.rng) :
  a <> [] -> length p = length a ->
  (forall w, In w p -> 0 <= w) -> Randomizer.Qsum p == 1 ->
  exists x, Randomizer.choice_p a p (u :: s) = Return (x, s) /\ In x a.
Proof.
  intros Hne Hlen Hpos Hsum. unfold Randomizer.choice_p.
  destruct a as [|y a]; [congruence|]. set (l := y :: a) in *.
  rewrite Hlen, Nat.eqb_refl. simpl negb.
  assert (Hnn : forallb (Qle_bool 0) p = true).
  { apply forallb_forall. intros w Hw. apply Qle_bool_iff. apply Hpos. exact Hw. }
  rewrite Hnn. simpl negb.
  rewrite (proj2 (Qeq_bool_iff _ _) Hsum). simpl negb. cbv iota.
  destruct (frac_range u) as [H0 H1].
  assert (Hi : (Randomizer.searchsorted 0 p (Randomizer.frac u) < length l)%nat).
  { rewrite <- Hlen. apply searchsorted_in_range; [exact H0|]. rewrite Hsum. lra. }
  destruct (nth_error l (Randomizer.searchsorted 0 p (Randomizer.frac u)))
    as [x|] eqn:E; [|apply nth_error_None in E; lia].
  exists x. split; [|apply nth_error_In with (1 := E)].
  cbv beta iota delta [negb Randomizer.bind Randomizer.random Randomizer.lift
                         Np.getitem].
  rewrite E. reflexivity.
Qed.

(** On a front of three members or more with as many crowding distances,
    none negative, an [np.exp] that is never negative, and weights that
    have not all vanished, the weighted topologies take one variate and
    return a member of the front. *)
Theorem weighted_topology_returns_member (np_exp : Q -> Q)
    (pareto_front : list Particle) (crowding_distances : list Q)
    (higher : bool) (u : Q) (s : Randomizer.rng) :
  (forall x, 0 <= np_exp x) ->
  (forall d, In d crowding_distances -> 0 <= d) ->
  (3 <= length pareto_front)%nat ->
  length crowding_distances = length pareto_front ->
  0 < Randomizer.Qsum (weights np_exp crowding_distances higher) ->
  exists leader,
    weighted_crowding_distance_topology np_exp pareto_front
      crowding_distances higher (u :: s) = Return (leader, s) /\
    In leader pareto_front.
Proof.
  intros Hexp _ Hn Hlen Htotal. unfold weighted_crowding_distance_topology.
  unfold Randomizer.bind at 1. rewrite boltzmann_large by lia.
  destruct (normalised_distribution _ (weights_nonneg np_exp _ _ Hexp) Htotal)
    as [Hpos Hsum].
  apply choice_p_returns.
  - intro E. rewrite E in Hn. simpl in Hn. lia.
  - rewrite weights_length. exact Hlen.
  - exact Hpos.
  - exact Hsum.
Qed.

Lemma weighted_topology_returns_member_witness :
  exists leader,
    weighted_crowding_distance_topology sample_exp
      [sample_member 0; sample_member 1; sample_member 2] [4; 1; 3] false
      [4 # 5; 1 # 9] = Return (leader, [1 # 9]) /\
    In leader [sample_member 0; sample_member 1; sample_member 2] /\
    leader = sample_member 2.
Proof.
  destruct (weighted_topology_returns_member sample_exp
              [sample_member 0; sample_member 1; sample_member 2] [4; 1; 3]
              false (4 # 5) [1 # 9] sample_exp_nonneg sample_distances_nonneg)
    as (leader & Hrun & Hin).
  - simpl. lia.
  - reflexivity.
  - vm_compute. reflexivity.
  - exists leader. split; [exact Hrun|]. split; [exact Hin|].
    vm_compute in Hrun. injection Hrun as <-. reflexivity.
Defined.

(** On a front of one member with one distance the weighted topologies
    take one variate and return the member.  On a front of two members
    with two distances they take two variates and return the first member
    when the first variate falls in the lower half of [[0, 1)], the second
    member otherwise: neither the distances nor [higher] nor the second
    variate has a say. *)
Theorem weighted_topology_small_fronts (np_exp : Q -> Q) (higher : bool)
    (p0 p1 : Particle) (d0 d1 u v : Q) (s : Randomizer.rng) :
  weighted_crowding_distance_topology np_exp [p0] [d0] higher (u :: s) =
    Return (p0, s) /\
  weighted_crowding_distance_topology np_exp [p0; p1] [d0; d1] higher
    (u :: v :: s) =
    Return (if Qle_bool (1 # 2) (Randomizer.frac u) then p1 else p0, s).
Proof.
  destruct (frac_range u) as [Hu0 Hu1].
  destruct (frac_range v) as [Hv0 Hv1].
  split.
  - assert (Hrun : weighted_crowding_distance_topology np_exp [p0] [d0] higher
                     (u :: s) =
                   Randomizer.lift
                     (Np.getitem [p0]
                        (if Qle_bool (0 + 1) (Randomizer.frac u)
                         then 1%nat else 0%nat)) s) by reflexivity.
    rewrite Hrun.
    rewrite (proj2 (Qle_bool_false (0 + 1) (Randomizer.frac u))) by lra.
    reflexivity.
  - assert (Hb : boltzmann np_exp [d0; d1] higher (u :: v :: s) =
                 Return (if Qle_bool (1 # 2) (Randomizer.frac u)
                         then [0; 1] else [1; 0], v :: s)).
    { assert (Hc : boltzmann np_exp [d0; d1] higher (u :: v :: s) =
                   Randomizer.lift
                     (Np.getitem [[1; 0]; [0; 1]]
                        (Randomizer.index_of 2 (Randomizer.frac u))) (v :: s))
        by reflexivity.
      rewrite Hc, index_of_two.
      destruct (Qle_bool (1 # 2) (Randomizer.frac u)); reflexivity. }
    unfold weighted_crowding_distance_topology, Randomizer.bind at 1.
    rewrite Hb.
    destruct (Qle_bool (1 # 2) (Randomizer.frac u)).
    + assert (Hrun : Randomizer.choice_p [p0; p1] [0; 1] (v :: s) =
                     Randomizer.lift
                       (Np.getitem [p0; p1]
                          (if Qle_bool (0 + 0) (Randomizer.frac v)
                           then S (if Qle_bool (0 + 0 + 1) (Randomizer.frac v)
                                   then 1%nat else 0%nat)
                           else 0%nat)) s) by reflexivity.
      rewrite Hrun.
      rewrite (proj2 (Qle_bool_iff (0 + 0) (Randomizer.frac v))) by lra.
      rewrite (proj2 (Qle_bool_false (0 + 0 + 1) (Randomizer.frac v))) by lra.
      reflexivity.
    + assert (Hrun : Randomizer.choice_p [p0; p1] [1; 0] (v :: s) =
                     Randomizer.lift
                       (Np.getitem [p0; p1]
                          (if Qle_bool (0 + 1) (Randomizer.frac v)
                           then S (if Qle_bool (0 + 1 + 0) (Randomizer.frac v)
                                   then 1%nat else 0%nat)
                           else 0%nat)) s) by reflexivity.
      rewrite Hrun.
      rewrite (proj2 (Qle_bool_false (0 + 1) (Randomizer.frac v))) by lra.
      reflexivity.
Qed.

Lemma weighted_topology_small_fronts_witness :
  weighted_crowding_distance_topology sample_exp [sample_member 0] [4] true
    [3 # 4; 1 # 9] = Return (sample_member 0, [1 # 9]) /\
  weighted_crowding_distance_topology sample_exp
    [sample_member 0; sample_member 1] [4; 1] true [3 # 4; 1 # 9] =
    Return (sample_member 1, []).
Proof.
  destruct (weighted_topology_small_fronts sample_exp true (sample_member 0)
              (sample_member 1) 4 1 (3 # 4) (1 # 9) []) as [H1 H2].
  split; [reflexivity | exact H2].
Defined.

(** * Further properties: the velocity update and a whole step *)

Lemma binop_aligned (f : Q -> Q -> Q) (a b : list Q) :
  length b = length a ->
  Np.binop f a b = Return (map (fun c => f (fst c) (snd c)) (combine a b)).
Proof.
  intro H. unfold Np.binop.
  rewrite H, broadcast_shape_same, broadcast_to_same.
  rewrite <- H, broadcast_to_same. reflexivity.
Qed.

Lemma nth_error_zip2 {A B C : Type} (f : A * B -> C) (a : list A) (b : list B)
    (i : nat) (x : A) (y : B) :
  nth_error a i = Some x -> nth_error b i = Some y ->
  nth_error (map f (combine a b)) i = Some (f (x, y)).
Proof.
  revert b i. induction a as [|x0 a IH]; intros [|y0 b] [|i] Ha Hb;
    simpl in *; try discriminate.
  - congruence.
  - apply IH; assumption.
Qed.

Lemma zip2_length {A B C : Type} (f : A * B -> C) (a : list A) (b : list B) :
  length b = length a -> length (map f (combine a b)) = length a.
Proof. intro H. rewrite length_map, length_combine. lia. Qed.

(** On arrays of one length the new velocity has that length, and cell
    [i] is [w * v + (c1 * r1) * (best - x) + (c2 * r2) * (leader - x)]. *)
Lemma new_velocity_aligned (self leader : Particle) (w c1 c2 r1 r2 : Q) (n : nat) :
  well_shaped n self -> length (position leader) = n ->
  exists v',
    new_velocity self leader w c1 c2 r1 r2 = Return v' /\
    length v' = n /\
    forall i v b x l,
      nth_error (velocity self) i = Some v ->
      nth_error (best_position self) i = Some b ->
      nth_error (position self) i = Some x ->
      nth_error (position leader) i = Some l ->
      nth_error v' i = Some (w * v + c1 * r1 * (b - x) + c2 * r2 * (l - x)).
Proof.
  intros (Hp & Hv & Hb) Hl. unfold new_velocity, Np.subtract, Np.add.
  set (sub := fun c : Q * Q => fst c - snd c).
  set (plus := fun c : Q * Q => fst c + snd c).
  set (to_best := map sub (combine (best_position self) (position self))).
  set (to_leader := map sub (combine (position leader) (position self))).
  set (cognitive := Np.scale (c1 * r1) to_best).
  set (social := Np.scale (c2 * r2) to_leader).
  set (inertia := Np.scale w (velocity self)).
  set (both := map plus (combine inertia cognitive)).
  assert (Hlb : length to_best = n).
  { unfold to_best. rewrite zip2_length; congruence. }
  assert (Hll : length to_leader = n).
  { unfold to_leader. rewrite zip2_length; congruence. }
  assert (Hlc : length cognitive = n).
  { unfold cognitive, Np.scale. rewrite length_map. exact Hlb. }
  assert (Hls : length social = n).
  { unfold social, Np.scale. rewrite length_map. exact Hll. }
  assert (Hli : length inertia = n).
  { unfold inertia, Np.scale. rewrite length_map. exact Hv. }
  assert (Hlboth : length both = n).
  { unfold both. rewrite zip2_length; congruence. }
  rewrite (binop_aligned Qminus (best_position self) (position self)) by congruence.
  fold sub. fold to_best. unfold obind at 1. fold cognitive.
  rewrite (binop_aligned Qminus (position leader) (position self)) by congruence.
  fold sub. fold to_leader. unfold obind at 1. fold social. fold inertia.
  rewrite (binop_aligned Qplus inertia cognitive) by congruence.
  fold plus. fold both. unfold obind.
  rewrite (binop_aligned Qplus both social) by congruence.
  fold plus.
  eexists. split; [reflexivity|]. split.
  - rewrite zip2_length; congruence.
  - intros i v b x l Hvi Hbi Hxi Hli'.
    apply (nth_error_zip2 plus both social i
             (w * v + c1 * r1 * (b - x)) (c2 * r2 * (l - x))).
    + apply (nth_error_zip2 plus inertia cognitive i
               (w * v) (c1 * r1 * (b - x))).
      * unfold inertia, Np.scale. rewrite nth_error_map, Hvi. reflexivity.
      * unfold cognitive, Np.scale, to_best. rewrite nth_error_map.
        rewrite (nth_error_zip2 sub _ _ i b x Hbi Hxi). reflexivity.
    + unfold social, Np.scale, to_leader. rewrite nth_error_map.
      rewrite (nth_error_zip2 sub _ _ i l x Hli' Hxi). reflexivity.
Qed.

Lemma update_velocity_run (np_exp : Q -> Q) (self leader : Particle)
    (pareto_front : list Particle) (crowding_distances : list Q)
    (w c1 c2 u1 u2 : Q) (s s' : Randomizer.rng) :
  get_pareto_leader np_exp self pareto_front crowding_distances s =
    Return (leader, u1 :: u2 :: s') ->
  update_velocity np_exp self pareto_front crowding_distances w c1 c2 s =
    Randomizer.bind
      (Randomizer.lift
         (new_velocity self leader w c1 c2
            (0 + (1 - 0) * Randomizer.frac u1)
            (0 + (1 - 0) * Randomizer.frac u2)))
      (fun v => Randomizer.ret (with_velocity self v)) s'.
Proof.
  intro H. unfold update_velocity. unfold Randomizer.bind at 1. rewrite H.
  reflexivity.
Qed.

Lemma update_velocity_aligned (np_exp : Q -> Q) (self leader : Particle)
    (pareto_front : list Particle) (crowding_distances : list Q)
    (w c1 c2 u1 u2 : Q) (s s' : Randomizer.rng) (n : nat) :
  well_shaped n self ->
  Forall (fun m => length (position m) = n) pareto_front ->
  get_pareto_leader np_exp self pareto_front crowding_distances s =
    Return (leader, u1 :: u2 :: s') ->
  exists v' r1 r2,
    update_velocity np_exp self pareto_front crowding_distances w c1 c2 s =
      Return (with_velocity self v', s') /\
    r1 == Randomizer.frac u1 /\ r2 == Randomizer.frac u2 /\
    length v' = n /\
    forall i v b x l,
      nth_error (velocity self) i = Some v ->
      nth_error (best_position self) i = Some b ->
      nth_error (position self) i = Some x ->
      nth_error (position leader) i = Some l ->
      nth_error v' i = Some (w * v + c1 * r1 * (b - x) + c2 * r2 * (l - x)).
Proof.
  intros Hshape Hfront Hlead.
  assert (Hl : length (position leader) = n).
  { apply (proj1 (Forall_forall _ _) Hfront). apply (leader_In _ _ _ _ _ _ _ Hlead). }
  destruct (new_velocity_aligned self leader w c1 c2
              (0 + (1 - 0) * Randomizer.frac u1)
              (0 + (1 - 0) * Randomizer.frac u2) n Hshape Hl)
    as (v' & Hrun & Hlen & Hcell).
  exists v', (0 + (1 - 0) * Randomizer.frac u1),
    (0 + (1 - 0) * Randomizer.frac u2).
  split.
  - rewrite (update_velocity_run _ _ _ _ _ _ _ _ _ _ _ _ Hlead).
    unfold Randomizer.bind, Randomizer.lift. rewrite Hrun. reflexivity.
  - split; [ring|]. split; [ring|]. split; [exact Hlen | exact Hcell].
Qed.

(** With a particle, a front and a leader of one dimension [n], and two
    variates left after the leader is chosen, [update_velocity] returns:
    it takes the two variates as [r1] and [r2], leaves position and
    personal best alone, and sets cell [i] of the velocity to
    [w * v + c1 * r1 * (best - x) + c2 * r2 * (leader - x)]; the particle
    keeps its shape. *)
Theorem update_velocity_cells (np_exp : Q -> Q) (self leader : Particle)
    (pareto_front : list Particle) (crowding_distances : list Q)
    (w c1 c2 u1 u2 : Q) (s s' : Randomizer.rng) (n : nat) :
  well_shaped n self ->
  Forall (fun m => length (position m) = n) pareto_front ->
  get_pareto_leader np_exp self pareto_front crowding_distances s =
    Return (leader, u1 :: u2 :: s') ->
  exists self' r1 r2,
    update_velocity np_exp self pareto_front crowding_distances w c1 c2 s =
      Return (self', s') /\
    r1 == Randomizer.frac u1 /\ r2 == Randomizer.frac u2 /\
    position self' = position self /\
    best_position self' = best_position self /\
    best_fitness self' = best_fitness self /\
    well_shaped n self' /\
    forall i v b x l,
      nth_error (velocity self) i = Some v ->
      nth_error (best_position self) i = Some b ->
      nth_error (position self) i = Some x ->
      nth_error (position leader) i = Some l ->
      nth_error (velocity self') i =
        Some (w * v + c1 * r1 * (b - x) + c2 * r2 * (l - x)).
Proof.
  intros Hshape Hfront Hlead.
  destruct (update_velocity_aligned np_exp self leader pareto_front
              crowding_distances w c1 c2 u1 u2 s s' n Hshape Hfront Hlead)
    as (v' & r1 & r2 & Hrun & Hr1 & Hr2 & Hlen & Hcell).
  exists (with_velocity self v'), r1, r2.
  destruct Hshape as (Hp & Hv & Hb).
  repeat split; auto.
Qed.

Lemma abs_scaled (c r d : Q) :
  0 <= r -> r <= 1 -> Qabs (c * r * d) <= Qabs c * Qabs d.
Proof.
  intros H0 H1. rewrite !Qabs_Qmult. rewrite (Qabs_pos r H0).
  pose proof (Qabs_nonneg c) as Hc. pose proof (Qabs_nonneg d) as Hd.
  apply Qmult_le_compat_nonneg.
  - split; [apply Qmult_le_0_compat; assumption|].
    setoid_replace (Qabs c) with (Qabs c * 1) at 2 by ring.
    apply Qmult_le_compat_nonneg; split; auto using Qle_refl.
  - split; [exact Hd | apply Qle_refl].
Qed.

(** Under the same conditions no cell of the new velocity exceeds, in
    absolute value, [|w| * |v| + |c1| * |best - x| + |c2| * |leader - x|]:
    the random factors only ever shrink the two pulls. *)
Theorem update_velocity_bounded (np_exp : Q -> Q) (self leader : Particle)
    (pareto_front : list Particle) (crowding_distances : list Q)
    (w c1 c2 u1 u2 : Q) (s s' : Randomizer.rng) (n : nat) :
  well_shaped n self ->
  Forall (fun m => length (position m) = n) pareto_front ->
  get_pareto_leader np_exp self pareto_front crowding_distances s =
    Return (leader, u1 :: u2 :: s') ->
  exists self',
    update_velocity np_exp self pareto_front crowding_distances w c1 c2 s =
      Return (self', s') /\
    forall i v b x l v',
      nth_error (velocity self) i = Some v ->
      nth_error (best_position self) i = Some b ->
      nth_error (position self) i = Some x ->
      nth_error (position leader) i = Some l ->
      nth_error (velocity self') i = Some v' ->
      Qabs v' <= Qabs w * Qabs v + Qabs c1 * Qabs (b - x) + Qabs c2 * Qabs (l - x).
Proof.
  intros Hshape Hfront Hlead.
  destruct (update_velocity_aligned np_exp self leader pareto_front
              crowding_distances w c1 c2 u1 u2 s s' n Hshape Hfront Hlead)
    as (v' & r1 & r2 & Hrun & Hr1 & Hr2 & Hlen & Hcell).
  exists (with_velocity self v'). split; [exact Hrun|]. simpl.
  intros i v b x l vi Hv Hb Hx Hl Hvi.
  rewrite (Hcell i v b x l Hv Hb Hx Hl) in Hvi. injection Hvi as <-.
  destruct (frac_range u1) as [H10 H11]. destruct (frac_range u2) as [H20 H21].
  rewrite <- Hr1 in H10, H11. rewrite <- Hr2 in H20, H21.
  eapply Qle_trans; [apply Qabs_triangle|].
  apply Qplus_le_compat.
  - eapply Qle_trans; [apply Qabs_triangle|].
    apply Qplus_le_compat.
    + rewrite Qabs_Qmult. apply Qle_refl.
    + apply abs_scaled; [exact H10 | apply Qlt_le_weak; exact H11].
  - apply abs_scaled; [exact H20 | apply Qlt_le_weak; exact H21].
Qed.

(** The three updates in a row: [set_fitness], then [update_velocity],
    then [update_position].  For a particle, a
    front and bounds of one dimension [n], with every lower bound at most
    its upper bound, if the fitness is accepted and a leader is chosen
    with two variates left, both updates return; the particle keeps its
    shape, every coordinate lies within its bounds, the fitness is the
    reported one and no component of the personal best has grown. *)
Theorem particle_step (np_empty : nat -> Q) (np_exp : Q -> Q)
    (self self1 leader : Particle) (pareto_front : list Particle)
    (crowding_distances f : list Q) (lower_bound upper_bound : list scalar)
    (w c1 c2 u1 u2 : Q) (s s' : Randomizer.rng) (n : nat) :
  well_shaped n self ->
  Forall (fun m => length (position m) = n) pareto_front ->
  length lower_bound = n -> length upper_bound = n ->
  (forall i lb ub,
     nth_error lower_bound i = Some lb -> nth_error upper_bound i = Some ub ->
     as_float lb <= as_float ub) ->
  set_fitness self f = Return self1 ->
  get_pareto_leader np_exp self1 pareto_front crowding_distances s =
    Return (leader, u1 :: u2 :: s') ->
  exists self2 self3,
    update_velocity np_exp self1 pareto_front crowding_distances w c1 c2 s =
      Return (self2, s') /\
    update_position np_empty self2 lower_bound upper_bound = Return self3 /\
    well_shaped n self3 /\
    (forall i x lb ub,
       nth_error (position self3) i = Some x ->
       nth_error lower_bound i = Some lb -> nth_error upper_bound i = Some ub ->
       as_float lb <= x /\ x <= as_float ub) /\
    fitness self3 = f /\
    componentwise_le (best_fitness self3) (best_fitness self) /\
    id self3 = id self /\ topology self3 = topology self.
Proof.
  intros Hshape Hfront Hlo Hup Hord Hfit Hlead.
  destruct Hshape as (Hp & Hv & Hb).
  assert (H1 : well_shaped n self1 /\ fitness self1 = f /\
               componentwise_le (best_fitness self1) (best_fitness self) /\
               id self1 = id self /\ topology self1 = topology self).
  { revert Hfit. unfold set_fitness, update_best. simpl.
    destruct (Np.all_le f (best_fitness self)) as [improved| |] eqn:E;
      simpl; try discriminate.
    intro H. injection H as <-. destruct improved; simpl.
    - repeat split; auto. apply all_le_sound. exact E.
    - repeat split; auto. apply componentwise_le_refl. }
  destruct H1 as (Hshape1 & Hf1 & Hbest1 & Hid1 & Htop1).
  destruct (update_velocity_aligned np_exp self1 leader pareto_front
              crowding_distances w c1 c2 u1 u2 s s' n Hshape1 Hfront Hlead)
    as (v' & r1 & r2 & Hrun & _ & _ & Hlen & _).
  destruct Hshape1 as (Hp1 & Hv1 & Hb1).
  destruct (update_position_aligned np_empty (with_velocity self1 v')
              lower_bound upper_bound)
    as (new & Hmove & Hnew & Hcell); simpl; try congruence.
  simpl in Hnew, Hcell.
  exists (with_velocity self1 v'), (with_position (with_velocity self1 v') new).
  split; [exact Hrun|]. split; [exact Hmove|].
  split; [unfold well_shaped; simpl; repeat split; congruence|]. simpl. split.
  - intros i x lb ub Hx Hlb Hub.
    assert (Hi : (i < n)%nat).
    { rewrite <- Hlo. apply nth_error_Some. congruence. }
    destruct (nth_error (position self1) i) as [p|] eqn:Ep;
      [|apply nth_error_None in Ep; lia].
    destruct (nth_error v' i) as [v|] eqn:Ev;
      [|apply nth_error_None in Ev; lia].
    rewrite (Hcell i lb ub p v Hlb Hub Ep Ev) in Hx.
    injection Hx as <-. apply clip1_within. exact (Hord i lb ub Hlb Hub).
  - repeat split; assumption.
Qed.

Lemma sample_particle_shape : well_shaped 2 sample_particle.
Proof. repeat split. Qed.

Lemma sample_front_shape :
  Forall (fun m => length (position m) = 2%nat) sample_front.
Proof. repeat constructor. Qed.

Lemma update_velocity_cells_witness :
  exists self',
    update_velocity sample_exp sample_particle sample_front [2; 1]
      (1 # 2) 1 1 [1 # 2; 1 # 4] = Return (self', []) /\
    position self' = position sample_particle /\
    well_shaped 2 self' /\
    exists r1 r2,
      nth_error (velocity self') 0 =
        Some ((1 # 2) * 1 + 1 * r1 * ((1 # 4) - (1 # 2)) + 1 * r2 * (1 - (1 # 2))).
Proof.
  destruct (update_velocity_cells sample_exp sample_particle
              (sample_point 1 4 1) sample_front [2; 1] (1 # 2) 1 1
              (1 # 2) (1 # 4) [1 # 2; 1 # 4] [] 2
              sample_particle_shape sample_front_shape eq_refl)
    as (self' & r1 & r2 & Hrun & _ & _ & Hpos & _ & _ & Hshape & Hcell).
  exists self'. split; [exact Hrun|]. split; [exact Hpos|].
  split; [exact Hshape|]. exists r1, r2.
  apply (Hcell 0%nat); reflexivity.
Defined.

Lemma update_velocity_bounded_witness :
  exists self',
    update_velocity sample_exp sample_particle sample_front [2; 1]
      (1 # 2) 1 1 [1 # 2; 1 # 4] = Return (self', []) /\
    forall v', nth_error (velocity self') 1 = Some v' ->
      Qabs v' <= Qabs (1 # 2) * Qabs 5 + Qabs 1 * Qabs (2 - 3) +
                 Qabs 1 * Qabs (4 - 3).
Proof.
  destruct (update_velocity_bounded sample_exp sample_particle
              (sample_point 1 4 1) sample_front [2; 1] (1 # 2) 1 1
              (1 # 2) (1 # 4) [1 # 2; 1 # 4] [] 2
              sample_particle_shape sample_front_shape eq_refl)
    as (self' & Hrun & Hbound).
  exists self'. split; [exact Hrun|].
  intros v' Hv'. apply (Hbound 1%nat 5 2 3 4 v'); try reflexivity. exact Hv'.
Defined.

Lemma particle_step_witness :
  exists self2 self3,
    update_velocity sample_exp (with_fitness sample_particle [5; 3])
      sample_front [2; 1] (1 # 2) 1 1 [1 # 2; 1 # 4] = Return (self2, []) /\
    update_position (fun _ => 0) self2 sample_lower_bound sample_upper_bound =
      Return self3 /\
    well_shaped 2 self3 /\
    fitness self3 = [5; 3].
Proof.
  destruct (particle_step (fun _ => 0) sample_exp sample_particle
              (with_fitness sample_particle [5; 3]) (sample_point 1 4 1)
              sample_front [2; 1] [5; 3] sample_lower_bound sample_upper_bound
              (1 # 2) 1 1 (1 # 2) (1 # 4) [1 # 2; 1 # 4] [] 2
              sample_particle_shape sample_front_shape eq_refl eq_refl)
    as (self2 & self3 & Hvel & Hmove & Hshape & _ & Hfit & _).
  - intros [|[|[|i]]] lb ub Hl Hu; simpl in Hl, Hu; try discriminate;
      injection Hl as <-; injection Hu as <-; unfold Qle; simpl; lia.
  - reflexivity.
  - reflexivity.
  - exists self2, self3. auto.
Defined.
